(** * TanyaAka ITB: the chat client and the document-to-chunk pipeline

    The development has three parts.

    - [Frontend] embeds the TypeScript client of the repository: the API
      client ([api.ts]), the root component with [handleSend] ([App.tsx]),
      the input form with [handleSubmit] ([ChatInput.tsx]) and the two
      rendering components [MessageBubble] and [SourceCard].  React state is
      passed explicitly; the values the environment chooses (the two
      [crypto.randomUUID()] results, the outcome of [fetch]) are arguments.

    - [Pipeline] is the ingestion pipeline (PageExtractor, PageFilter,
      ContinuationMerger, HierarchicalChunker, ChunkMetadataBuilder).  Its
      Python sources are not part of the source tree at hand, so every
      definition there is modelled from the specification and says so.

    - [Session] puts the client together: the chat window, the source card
      inside a bubble, and the loop of user events and settling requests.

    Definitions come first, the theorems follow in the second part. *)

From stdpp Require Import gmap strings list.
From Stdlib Require Import ZArith NArith Ascii String.
From Corelib Require Import PrimFloat.

Local Open Scope string_scope.
Local Open Scope list_scope.

Set Warnings "-clear-no-such-hyp".

(** ** Trimming, generic in the character type

    JavaScript strings are sequences of UTF-16 code units, the pipeline's
    texts are sequences of characters; both trim by dropping a leading and a
    trailing run of white space. *)
Module Text.

Section Trim.
Context {A : Type} (ws : A → bool).

Fixpoint trim_start (l : list A) : list A :=
  match l with
  | [] => []
  | c :: l' => if ws c then trim_start l' else l
  end.

Definition trim_end (l : list A) : list A :=
  reverse (trim_start (reverse l)).

Definition trim (l : list A) : list A := trim_end (trim_start l).

End Trim.

End Text.

(** ** The client *)
Module Frontend.

(** A JavaScript string: its UTF-16 code units. *)
Definition jsstring : Type := list N.

(** The code units of an ASCII literal. *)
Definition utf16 (s : string) : jsstring :=
  N_of_ascii <$> list_ascii_of_string s.

(** [String.prototype.trim] removes WhiteSpace and LineTerminator code
    points (ECMA-262, 22.1.3.32): TAB, LF, VT, FF, CR, SP, NBSP, U+1680,
    U+2000..U+200A, U+2028, U+2029, U+202F, U+205F, U+3000 and U+FEFF. *)
Definition js_whitespace (c : N) : bool :=
  ((9 <=? c) && (c <=? 13) || (c =? 32) || (c =? 160) || (c =? 5760)
   || (8192 <=? c) && (c <=? 8202) || (c =? 8232) || (c =? 8233)
   || (c =? 8239) || (c =? 8287) || (c =? 12288) || (c =? 65279))%N.

Definition js_trim (s : jsstring) : jsstring := Text.trim js_whitespace s.

(** [!s] on a string: only the empty string is falsy. *)
Definition js_not (s : jsstring) : bool :=
  match s with [] => true | _ => false end.

(** A JavaScript number: an IEEE 754 binary64 value.  [+] on two numbers
    is the binary64 addition, rounding to nearest, ties to even. *)
Definition jsnumber : Type := float.

Definition js_add (x y : jsnumber) : jsnumber := PrimFloat.add x y.

(** A value read from a JSON text by [response.json()].  The members of an
    object are kept in the order of the text. *)
#[warnings="-register-all"]
Inductive Json : Type :=
  | JNull
  | JBool (b : bool)
  | JNumber (x : jsnumber)
  | JString (s : jsstring)
  | JArray (items : list Json)
  | JObject (members : list (jsstring * Json)).

(** ToBoolean (ECMA-262, 7.1.2) on a JSON value: [null], [false], [+0],
    [-0], NaN and the empty string are falsy; every array and every object
    is truthy. *)
Definition js_truthy (v : Json) : bool :=
  match v with
  | JNull => false
  | JBool b => b
  | JNumber x => negb (PrimFloat.eqb x 0%float || negb (PrimFloat.eqb x x))
  | JString s => negb (js_not s)
  | JArray _ | JObject _ => true
  end.

(** The value of the own property [key] of a parsed object: of members
    with the same name, [JSON.parse] keeps the last. *)
Definition get_member (key : jsstring) (members : list (jsstring * Json)) : option Json :=
  snd <$> List.find (λ m, bool_decide (m.1 = key)) (reverse members).

(** *** types.ts *)

(** [interface Source]: [page] is declared [number | null]. *)
Record Source : Type := mkSource {
  document : jsstring;
  page : option jsnumber;
  content_snippet : jsstring;
}.

Record ChatResponse : Type := mkChatResponse {
  answer : jsstring;
  sources : list Source;
  model : jsstring;
}.

Inductive Role : Type := user | assistant.

(** [interface ChatMessage]; the three optional fields are [None] when the
    object literal does not set them. *)
Record ChatMessage : Type := mkChatMessage {
  id : jsstring;
  role : Role;
  content : jsstring;
  msg_sources : option (list Source);
  isLoading : option bool;
  isError : option bool;
}.

(** *** api.ts *)

(** What [fetch] and the body readers can do.  [resp_error] is the result
    of [response.json()] on the error path: the parsed body, [None] when
    that promise rejects (the body is not JSON).  [resp_chat] is the result
    of [response.json()] on the success path, typed [ChatResponse] by the
    function's signature; [None] when that promise rejects. *)
Record HttpResponse : Type := mkHttpResponse {
  ok : bool;
  resp_error : option Json;
  resp_chat : option ChatResponse;
}.

Inductive FetchOutcome : Type :=
  | FetchRejected
  | FetchResolved (r : HttpResponse).

(** What [sendMessage] can throw: the rejection of [fetch]; the
    [new Error(reason)] of the error path, kept with the argument [reason]
    it is built from (its message is [String(reason)]); the TypeError of
    reading [detail] of [null]; the rejection of [response.json()] on the
    success path. *)
Inductive Thrown : Type :=
  | NetworkFailure
  | HttpError (reason : Json)
  | DetailOfNull
  | BodyNotJson.

Inductive Completion (A : Type) : Type :=
  | Returned (a : A)
  | Threw (e : Thrown).
Arguments Returned {A} a.
Arguments Threw {A} e.

Definition default_reason : Json := JString (utf16 "Gagal mengirim pertanyaan").

(** [await response.json().catch(() => ({}))]. *)
Definition error_body (r : HttpResponse) : Json :=
  default (JObject []) (resp_error r).

(** [error.detail]: reading a property of [null] throws a TypeError
    (the outer [None]); an object gives the value of its member [detail] or
    [undefined] (the inner [None]); an array, a string, a number and a
    boolean have no property of that name. *)
Definition detail_of (error : Json) : option (option Json) :=
  match error with
  | JNull => None
  | JObject members => Some (get_member (utf16 "detail") members)
  | _ => Some None
  end.

(** [detail || "Gagal mengirim pertanyaan"]. *)
Definition reason_or_default (detail : option Json) : Json :=
  match detail with
  | Some d => if js_truthy d then d else default_reason
  | None => default_reason
  end.

Definition sendMessage (f : FetchOutcome) : Completion ChatResponse :=
  match f with
  | FetchRejected => Threw NetworkFailure
  | FetchResolved r =>
      if negb (ok r) then
        match detail_of (error_body r) with
        | Some detail => Threw (HttpError (reason_or_default detail))
        | None => Threw DetailOfNull
        end
      else match resp_chat r with
           | Some c => Returned c
           | None => Threw BodyNotJson
           end
  end.

(** *** App.tsx *)

Record AppState : Type := mkAppState {
  messages : list ChatMessage;
  appLoading : bool;
}.

Definition userMessage (uid question : jsstring) : ChatMessage :=
  {| id := uid; role := user; content := question;
     msg_sources := None; isLoading := None; isError := None |}.

Definition loadingMessage (lid : jsstring) : ChatMessage :=
  {| id := lid; role := assistant; content := [];
     msg_sources := None; isLoading := Some true; isError := None |}.

Definition assistantMessage (lid : jsstring) (response : ChatResponse) : ChatMessage :=
  {| id := lid; role := assistant; content := answer response;
     msg_sources := Some (sources response); isLoading := None; isError := None |}.

Definition error_text : jsstring :=
  utf16 "Gagal mengirim pertanyaan. Silakan coba lagi.".

Definition errorMessage (lid : jsstring) : ChatMessage :=
  {| id := lid; role := assistant; content := error_text;
     msg_sources := None; isLoading := None; isError := Some true |}.

(** [prev.map((msg) => (msg.id === lid ? replacement : msg))]. *)
Definition replace_by_id (lid : jsstring) (replacement : ChatMessage)
    (prev : list ChatMessage) : list ChatMessage :=
  (λ msg, if decide (id msg = lid) then replacement else msg) <$> prev.

(** The first half of [handleSend], up to the [await]: the two state
    updates [setMessages(prev => [...prev, userMessage, loadingMessage])]
    and [setIsLoading(true)].  [uid] and [lid] are the results of the two
    calls of [crypto.randomUUID()]. *)
Definition handleSend_begin (uid lid question : jsstring) (st : AppState) : AppState :=
  {| messages := messages st ++ [userMessage uid question; loadingMessage lid];
     appLoading := true |}.

(** The message that takes the placeholder's place: [assistantMessage] in
    the [try] branch, [errorMessage] in the [catch] branch. *)
Definition completion_message (lid : jsstring) (c : Completion ChatResponse) : ChatMessage :=
  match c with
  | Returned response => assistantMessage lid response
  | Threw _ => errorMessage lid
  end.

(** The second half of [handleSend], after the [await]: the functional
    update of the list in [try] or [catch], then [finally]. *)
Definition handleSend_complete (lid : jsstring) (c : Completion ChatResponse)
    (st : AppState) : AppState :=
  {| messages := replace_by_id lid (completion_message lid c) (messages st);
     appLoading := false |}.

(** [handleSend] when nothing else touches the state during the request. *)
Definition handleSend (uid lid question : jsstring) (f : FetchOutcome)
    (st : AppState) : AppState :=
  handleSend_complete lid (sendMessage f) (handleSend_begin uid lid question st).

(** *** ChatInput.tsx *)

(** What one submit of the form does: whether [e.preventDefault()] ran, the
    argument of the [onSend] call if there is one, and the value of the
    [input] state afterwards. *)
Record SubmitEffect : Type := mkSubmitEffect {
  default_prevented : bool;
  onSend_call : option jsstring;
  input_after : jsstring;
}.

Definition handleSubmit (input : jsstring) (disabled : bool) : SubmitEffect :=
  let trimmed := js_trim input in
  if js_not trimmed || disabled
  then {| default_prevented := true; onSend_call := None; input_after := input |}
  else {| default_prevented := true; onSend_call := Some trimmed; input_after := [] |}.

(** [canSend]: [input.trim().length > 0 && !disabled]. *)
Definition canSend (input : jsstring) (disabled : bool) : bool :=
  (0 <? List.length (js_trim input))%nat && negb disabled.

(** The request failed: [fetch] rejected (network error) or the response is
    not [ok]. *)
Definition request_failed (f : FetchOutcome) : bool :=
  match f with
  | FetchRejected => true
  | FetchResolved r => negb (ok r)
  end.

(** *** SourceCard.tsx *)

(** One rendered citation: the document name, the page label
    ("Hal. [page + 1]") when [source.page != null], and the snippet. *)
Record SourceEntry : Type := mkSourceEntry {
  entry_document : jsstring;
  entry_page_label : option jsnumber;
  entry_snippet : jsstring;
}.

Definition render_source (source : Source) : SourceEntry :=
  {| entry_document := document source;
     entry_page_label :=
       match page source with
       | Some p => Some (js_add p 1%float)
       | None => None
       end;
     entry_snippet := content_snippet source |}.

(** A citation as the response schema allows it, with [page] null. *)
Definition null_page_source : Source :=
  {| document := utf16 "Buku_Peraturan_Akademik_2024.pdf";
     page := None;
     content_snippet := utf16 "Pasal 58 tentang Kelulusan..." |}.

(** The card: nothing for an empty list; otherwise the counter of the
    toggle button and, when expanded, one entry per source in order. *)
Record SourceCardView : Type := mkSourceCardView {
  card_count : nat;
  card_entries : option (list SourceEntry);
}.

Definition SourceCard (srcs : list Source) (expanded : bool) : option SourceCardView :=
  if (List.length srcs =? 0)%nat then None
  else Some {| card_count := List.length srcs;
               card_entries := if expanded then Some (render_source <$> srcs) else None |}.

(** *** MessageBubble.tsx *)

Inductive Bubble : Type :=
  | LoadingBubble
  | UserBubble (text : jsstring)
  | ErrorBubble (text : jsstring)
  | AnswerBubble (text : jsstring) (srcs : option (list Source)).

(** An optional boolean in a condition: [undefined] is falsy. *)
Definition truthy (b : option bool) : bool := default false b.

Definition MessageBubble (message : ChatMessage) : Bubble :=
  if truthy (isLoading message) then LoadingBubble
  else match role message with
       | user => UserBubble (content message)
       | assistant =>
           if truthy (isError message) then ErrorBubble (content message)
           else AnswerBubble (content message) (msg_sources message)
       end.

End Frontend.

(** ** The ingestion pipeline

    The repository's [backend/app/services/document_processor.py] and
    [vector_store.py] are not in the source tree at hand.  The definitions
    of this module follow sections 3 to 6 of the specification. *)
Module Pipeline.

(** *** Texts and lines *)

Definition newline : ascii := "010"%char.

(** The one-character text of a line feed. *)
Definition nl : string := String newline EmptyString.

(** Modelled from the spec: the line structure the missing
    document_processor.py works on ("first non-empty line", "start of a
    line").  A text is cut at every line feed, so a text of [n] line feeds
    has [n + 1] lines. *)
Fixpoint lines (s : string) : list string :=
  match s with
  | EmptyString => [EmptyString]
  | String c s' =>
      if Ascii.eqb c newline then EmptyString :: lines s'
      else match lines s' with
           | l :: ls => String c l :: ls
           | [] => [String c EmptyString]
           end
  end.

(** The inverse of [lines]: the lines with a line feed between neighbours. *)
Fixpoint join_lines (ls : list string) : string :=
  match ls with
  | [] => EmptyString
  | [l] => l
  | l :: ls' => l ++ String newline (join_lines ls')
  end.

(** Modelled from the spec: "trim whitespace" of the missing
    document_processor.py, over ASCII white space. *)
Definition trim (s : string) : string :=
  string_of_list_ascii (Text.trim Ascii.is_space (list_ascii_of_string s)).

Definition is_empty (s : string) : bool :=
  match s with EmptyString => true | String _ _ => false end.

(** A line is blank when nothing is left of it after trimming. *)
Definition is_blank (line : string) : bool := is_empty (trim line).

(** *** Data model (section 3) *)

(** Modelled from the spec: [Page] and [FilteredPage] of the missing
    document_processor.py; a filtered page keeps the index it was extracted
    with. *)
Record Page : Type := mkPage {
  index : nat;
  raw_text : string;
}.

(** Modelled from the spec: [MergedBlock]. *)
Record MergedBlock : Type := mkMergedBlock {
  primary_page_index : nat;
  block_text : string;
  merged_from : list nat;
}.

(** Modelled from the spec: [Chunk], the unit handed to the embedding
    stage. *)
Record Chunk : Type := mkChunk {
  text : string;
  article_context : option string;
  clause_number : option nat;
  page : nat;
  source_document : string;
  merged_page_indices : list nat;
}.

(** Modelled from the spec: the parts of the classifiers of the missing
    document_processor.py that the specification leaves to the
    implementer: the article-declaration pattern with the label it yields
    ("keyword + number, optionally + title"), the minimum length of a
    section header, how many pages count as "the first few", the shape tests
    for a title page and for table-of-contents indicators, and the
    per-document detection of repeating header and footer lines. *)
Class Heuristics : Type := mkHeuristics {
  article_label : string → option string;
  min_header_length : nat;
  first_few_pages : nat;
  title_page_shape : string → bool;
  toc_indicators : string → bool;
  repeating_line : list Page → string → bool;
}.

(** *** Line patterns *)

(** The value of a run of decimal digits, and what follows it. *)
Fixpoint read_digits (acc : nat) (s : string) : nat * string :=
  match s with
  | EmptyString => (acc, s)
  | String c s' =>
      match Ascii.is_nat c with
      | Some d => read_digits (10 * acc + d) s'
      | None => (acc, s)
      end
  end.

(** Modelled from the spec: the clause-marker pattern [^\(\d+\)] of the
    missing document_processor.py, with the marker's integer value. *)
Definition clause_marker (line : string) : option nat :=
  match line with
  | String "("%char (String c rest) =>
      match Ascii.is_nat c with
      | Some d =>
          match read_digits d rest with
          | (n, String ")"%char _) => Some n
          | _ => None
          end
      | None => None
      end
  | _ => None
  end.

Definition is_upper_or_space (c : ascii) : bool :=
  let n := nat_of_ascii c in
  ((65 <=? n) && (n <=? 90) || (n =? 32))%nat.

Fixpoint all_chars (p : ascii → bool) (s : string) : bool :=
  match s with
  | EmptyString => true
  | String c s' => p c && all_chars p s'
  end.

(** Each index is the immediate successor of the one before it. *)
Fixpoint consecutive (l : list nat) : Prop :=
  match l with
  | a :: (b :: _) as t => b = S a ∧ consecutive t
  | _ => True
  end.

(** Each index is greater than the one before it. *)
Fixpoint strictly_increasing (l : list nat) : Prop :=
  match l with
  | a :: (b :: _) as t => (a < b)%nat ∧ strictly_increasing t
  | _ => True
  end.

Section WithHeuristics.
Context `{Heuristics}.

(** Modelled from the spec: "a line consisting entirely of uppercase
    letters/spaces above a minimum length is a section header". *)
Definition is_section_header (line : string) : bool :=
  all_chars is_upper_or_space line && (min_header_length <? String.length line)%nat.

(** Modelled from the spec: the chunker cuts a block in front of a line
    that declares an article or carries a clause marker. *)
Definition is_split_point (line : string) : bool :=
  bool_decide (is_Some (article_label line)) || bool_decide (is_Some (clause_marker line)).

(** "Contains at least one article or clause marker". *)
Definition has_marker (t : string) : bool := existsb is_split_point (lines t).

(** *** PageExtractor (4.1) *)

(** A physical page of the source: its decoded text, or corrupt. *)
Inductive SourcePage : Type :=
  | Decoded (t : string)
  | Corrupt.

Inductive IngestError : Type := ExtractionError.

Definition page_text (sp : SourcePage) : string :=
  match sp with Decoded t => t | Corrupt => EmptyString end.

(** Modelled from the spec: the PageExtractor of the missing
    document_processor.py.  A source that cannot be opened ([None]) fails
    with [ExtractionError]; otherwise there is one page per physical page,
    numbered from 0 in order, and a corrupt page has the empty text. *)
Definition extract (source : option (list SourcePage)) : IngestError + list Page :=
  match source with
  | None => inl ExtractionError
  | Some sps => inr (imap (λ i sp, {| index := i; raw_text := page_text sp |}) sps)
  end.

(** *** PageFilter (4.2) *)

(** Modelled from the spec: the title-page test, "its text matches
    heuristics for a title page".  The rule states no other condition for
    it, so the test is the tunable [title_page_shape] alone. *)
Definition is_title_page (t : string) : bool := title_page_shape t.

(** Modelled from the spec: the table-of-contents test, "lacks any
    clause/article markers while containing known ToC indicators". *)
Definition is_toc_page (t : string) : bool :=
  negb (has_marker t) && toc_indicators t.

(** Modelled from the spec: the discard rule of the PageFilter, "among the
    first few pages of the document AND its text matches heuristics for a
    title page or lacks any clause/article markers while containing known
    ToC indicators". *)
Definition discard (p : Page) : bool :=
  (index p <? first_few_pages)%nat
  && (is_title_page (raw_text p) || is_toc_page (raw_text p)).

(** Modelled from the spec: header and footer stripping.  The repeating
    lines are identified once, over the pages of the whole document. *)
Definition strip_boilerplate (all_pages : list Page) (p : Page) : Page :=
  {| index := index p;
     raw_text := join_lines (filter (λ l, negb (repeating_line all_pages l))
                                    (lines (raw_text p))) |}.

(** Modelled from the spec: the PageFilter of the missing
    document_processor.py; the remaining pages keep their order and their
    indices. *)
Definition page_filter (pages : list Page) : list Page :=
  strip_boilerplate pages <$> filter (λ p, negb (discard p)) pages.

(** *** ContinuationMerger (4.3) *)

Inductive LineClass : Type :=
  | ArticleDeclaration
  | ClauseMarker
  | SectionHeader
  | Continuation.

(** Modelled from the spec: the classification rule, evaluated in the
    order article declaration, clause marker, section header; "anything
    else is a continuation". *)
Definition classify (line : string) : LineClass :=
  if bool_decide (is_Some (article_label line)) then ArticleDeclaration
  else if bool_decide (is_Some (clause_marker line)) then ClauseMarker
  else if is_section_header line then SectionHeader
  else Continuation.

Definition first_non_empty_line (t : string) : option string :=
  List.find (λ l, negb (is_blank l)) (lines t).

(** Modelled from the spec: whether the merger folds a page into the
    accumulating block: its first non-empty line is a continuation, or it
    has no non-empty line at all ("continuation-only noise"). *)
Definition is_continuation_page (p : Page) : bool :=
  match first_non_empty_line (raw_text p) with
  | None => true
  | Some l =>
      match classify l with
      | Continuation => true
      | _ => false
      end
  end.

Definition start_block (p : Page) : MergedBlock :=
  {| primary_page_index := index p; block_text := raw_text p; merged_from := [] |}.

(** Modelled from the spec: the page's text is appended to the block,
    after one space (the specification's scenario reads "... menyelesaikan
    seluruh mata kuliah wajib."), and its index is recorded. *)
Definition absorb (acc : MergedBlock) (p : Page) : MergedBlock :=
  {| primary_page_index := primary_page_index acc;
     block_text := block_text acc ++ String " "%char (raw_text p);
     merged_from := merged_from acc ++ [index p] |}.

(** Modelled from the spec: the scan with its accumulating block.  A
    continuation page is absorbed; any other page closes the block, which is
    emitted, and opens the next one; the last block is emitted at the end. *)
Fixpoint merge_from (acc : MergedBlock) (ps : list Page) : list MergedBlock :=
  match ps with
  | [] => [acc]
  | p :: ps' =>
      if is_continuation_page p then merge_from (absorb acc p) ps'
      else acc :: merge_from (start_block p) ps'
  end.

(** Modelled from the spec: the ContinuationMerger of the missing
    document_processor.py.  The first page opens the first block, whatever
    its first line is: there is no block yet to append it to. *)
Definition merge (ps : list Page) : list MergedBlock :=
  match ps with
  | [] => []
  | p :: ps' => merge_from (start_block p) ps'
  end.

(** The pages of a block: the primary page, then the absorbed ones. *)
Definition block_pages (b : MergedBlock) : list nat :=
  primary_page_index b :: merged_from b.

(** The block a page opens once it has absorbed the pages of [run]. *)
Definition block_of (p : Page) (run : list Page) : MergedBlock :=
  foldl absorb (start_block p) run.


(** *** HierarchicalChunker (4.4) *)

(** Modelled from the spec: steps 3 and 4 of the chunker.  The segment is
    trimmed, dropped when nothing is left, and stamped otherwise. *)
Definition close_segment (doc : string) (b : MergedBlock)
    (ctx : option string) (clause : option nat) (seg : list string) : list Chunk :=
  let t := trim (join_lines seg) in
  if is_empty t then []
  else [ {| text := t; article_context := ctx; clause_number := clause;
            page := primary_page_index b; source_document := doc;
            merged_page_indices := merged_from b |} ].

(** Modelled from the spec: step 2 of the chunker, line by line.  [ctx] is
    the current article context, [clause]
    and [seg] are the marker value and the lines of the segment being
    collected.  A declaration line closes the segment, switches the context
    and is not itself part of a segment; a clause-marker line closes the
    segment and opens the next one; any other line joins the segment. *)
Fixpoint chunk_lines (doc : string) (b : MergedBlock) (ctx : option string)
    (clause : option nat) (seg : list string) (ls : list string)
    : list Chunk * option string :=
  match ls with
  | [] => (close_segment doc b ctx clause seg, ctx)
  | l :: ls' =>
      match article_label l with
      | Some lab =>
          let '(out, ctx') := chunk_lines doc b (Some lab) None [] ls' in
          (close_segment doc b ctx clause seg ++ out, ctx')
      | None =>
          match clause_marker l with
          | Some n =>
              let '(out, ctx') := chunk_lines doc b ctx (Some n) [l] ls' in
              (close_segment doc b ctx clause seg ++ out, ctx')
          | None => chunk_lines doc b ctx clause (seg ++ [l]) ls'
          end
      end
  end.

(** The labels of the declaration lines, in order. *)
Definition declarations (ls : list string) : list string :=
  omap article_label ls.

Definition block_declarations (b : MergedBlock) : list string :=
  declarations (lines (block_text b)).


(** Modelled from the spec: step 1 of the chunker.  A block that contains
    a declaration updates the context before any of its segments is
    emitted. *)
Definition block_context (ctx : option string) (ls : list string) : option string :=
  match declarations ls with
  | lab :: _ => Some lab
  | [] => ctx
  end.

(** Modelled from the spec: the HierarchicalChunker on one block, with the
    context passed in and returned.  Step 1 sets the context from the
    block's first declaration; inside the block the context then switches at
    every further declaration, and the last one is carried forward. *)
Definition chunk_block (doc : string) (ctx : option string) (b : MergedBlock)
    : list Chunk * option string :=
  chunk_lines doc b (block_context ctx (lines (block_text b))) None []
    (lines (block_text b)).

(** Modelled from the spec: the chunker over the blocks of a document, as
    the fold of section 9. *)
Fixpoint chunk_blocks (doc : string) (ctx : option string) (bs : list MergedBlock)
    : list Chunk * option string :=
  match bs with
  | [] => ([], ctx)
  | b :: bs' =>
      let '(cs, ctx') := chunk_block doc ctx b in
      let '(rest, ctx'') := chunk_blocks doc ctx' bs' in
      (cs ++ rest, ctx'')
  end.






(** *** The pipeline, left to right *)

Definition chunks_of_pages (doc : string) (pages : list Page) : list Chunk :=
  (chunk_blocks doc None (merge (page_filter pages))).1.

Definition pipeline (doc : string) (source : option (list SourcePage))
    : IngestError + list Chunk :=
  match extract source with
  | inl e => inl e
  | inr pages => inr (chunks_of_pages doc pages)
  end.

End WithHeuristics.

(** *** ChunkMetadataBuilder (4.5) and the store (section 6) *)

(** Modelled from the spec: the [metadata_record], every field of the chunk
    but its text. *)
Record Metadata : Type := mkMetadata {
  meta_article_context : option string;
  meta_clause_number : option nat;
  meta_page : nat;
  meta_source_document : string;
  meta_merged_page_indices : list nat;
}.

(** Modelled from the spec: the embeddable text, the chunk's text with the
    article label in front when there is one. *)
Definition embeddable_text (c : Chunk) : string :=
  match article_context c with
  | Some lab => lab ++ String newline (text c)
  | None => text c
  end.

Definition metadata_record (c : Chunk) : Metadata :=
  {| meta_article_context := article_context c;
     meta_clause_number := clause_number c;
     meta_page := page c;
     meta_source_document := source_document c;
     meta_merged_page_indices := merged_page_indices c |}.

(** Modelled from the spec: the chunk identity,
    [(source_document, page, clause_number, article_context)]. *)
Definition Identity : Type := string * nat * option nat * option string.

Definition identity (c : Chunk) : Identity :=
  (source_document c, page c, clause_number c, article_context c).

(** Modelled from the spec: the external vector store of the missing
    vector_store.py, seen through its contract: an upsert keyed by the
    chunk identity. *)
Definition upsert (store : gmap Identity (string * Metadata)) (c : Chunk)
    : gmap Identity (string * Metadata) :=
  <[identity c := (embeddable_text c, metadata_record c)]> store.

Definition store_chunks (store : gmap Identity (string * Metadata)) (cs : list Chunk)
    : gmap Identity (string * Metadata) :=
  foldl upsert store cs.

Record IngestStats : Type := mkIngestStats {
  chunks_produced : nat;
  pages_skipped : nat;
}.

(** Modelled from the spec: the batch operation [ingest] of the missing
    backend: the pipeline, then the hand-off to the store. *)
Definition ingest `{Heuristics} (store : gmap Identity (string * Metadata))
    (doc : string) (source : option (list SourcePage))
    : IngestError + (gmap Identity (string * Metadata) * IngestStats) :=
  match extract source with
  | inl e => inl e
  | inr pages =>
      let cs := chunks_of_pages doc pages in
      inr (store_chunks store cs,
           {| chunks_produced := List.length cs;
              pages_skipped := List.length pages - List.length (page_filter pages) |})
  end.




(** *** A reference choice of heuristics

    Used for the concrete scenarios of section 8: an article declaration is
    a line "Pasal <number> ..." and its label is the line; a title page has
    at most six non-blank lines, none longer than forty characters; a table of contents shows a "DAFTAR ISI"
    heading or a dotted leader; a repeating line is a non-blank line found
    verbatim on more than half of the pages. *)

Definition pasal_label (line : string) : option string :=
  match line with
  | String "P" (String "a" (String "s" (String "a" (String "l"
      (String " " (String c _)))))) =>
      if bool_decide (is_Some (Ascii.is_nat c)) then Some line else None
  | _ => None
  end%char.

Fixpoint has_dotted_leader (s : string) : bool :=
  match s with
  | String "." (String "." (String "." _)) => true
  | String _ s' => has_dotted_leader s'
  | EmptyString => false
  end%char.

Definition reference_heuristics : Heuristics :=
  {| article_label := pasal_label;
     min_header_length := 3;
     first_few_pages := 5;
     title_page_shape :=
       λ t, let ls := filter (λ l, negb (is_blank l)) (lines t) in
            (List.length ls <=? 6)%nat
            && forallb (λ l, (String.length l <=? 40)%nat) ls;
     toc_indicators :=
       λ t, existsb (λ l, String.eqb (trim l) "DAFTAR ISI" || has_dotted_leader l)
                    (lines t);
     repeating_line :=
       λ pages l,
         negb (is_blank l)
         && (List.length pages
             <? 2 * List.length (filter (λ p, bool_decide (l ∈ lines (raw_text p))) pages))%nat |}.

(** *** Example documents *)

(** Section 8, first scenario: page 7 ends in the middle of a sentence and
    page 8 goes on in lower case. *)
Definition split_page_7 : Page :=
  {| index := 7;
     raw_text := "Pasal 21 Kelulusan" ++ nl
                 ++ "(1) Gelar diberikan kepada mahasiswa yang telah menyelesaikan" |}.

Definition split_page_8 : Page :=
  {| index := 8;
     raw_text := "seluruh mata kuliah wajib." ++ nl
                 ++ "(2) Batas maksimum SKS ditetapkan oleh fakultas." |}.

Definition split_clause_pages : list Page := [split_page_7; split_page_8].


(** Section 8, second scenario: an article heading and two clauses. *)
Definition pasal14_block : MergedBlock :=
  {| primary_page_index := 12;
     block_text := "Pasal 14 Rencana Studi Semester" ++ nl
                   ++ "(1) Setiap mahasiswa wajib..." ++ nl
                   ++ "(2) Batas maksimum SKS...";
     merged_from := [] |}.

(** A later block of the same article, without a heading of its own. *)
Definition followup_block : MergedBlock :=
  {| primary_page_index := 13;
     block_text := "(3) Rencana studi disahkan oleh dosen wali." ++ nl
                   ++ "(4) Perubahan rencana studi dilakukan pada masa perubahan.";
     merged_from := [] |}.

(** Section 8, third scenario: an article without clause markers. *)
Definition pasal8_block : MergedBlock :=
  {| primary_page_index := 5;
     block_text := "Pasal 8 Bahasa Pengantar" ++ nl
                   ++ "Bahasa pengantar adalah Bahasa Indonesia.";
     merged_from := [] |}.





(** A four-page document: an article whose first clause runs over pages 0
    and 1, a page of dotted-leader lines, and the end of the clause on
    page 3. *)
Definition gap_document : list SourcePage :=
  [ Decoded ("Pasal 1 Umum" ++ nl
             ++ "(1) Mahasiswa wajib mengikuti ketentuan yang ditetapkan oleh");
    Decoded "Institut Teknologi Bandung sebagaimana tercantum dalam lampiran peraturan ini, yaitu";
    Decoded ("Lampiran A ..... 12" ++ nl ++ "Lampiran B ..... 14");
    Decoded "ketentuan lain yang berlaku di lingkungan Institut Teknologi Bandung." ].





(** A filtered sequence with a gap at index 2, whose pages 1 and 3 have no
    text (corrupt pages are extracted with the empty text). *)
Definition empty_pages_around_gap : list Page :=
  [ {| index := 0; raw_text := "(1) Mahasiswa wajib hadir." |};
    {| index := 1; raw_text := "" |};
    {| index := 3; raw_text := "" |} ].

End Pipeline.

(** ** The client as a whole

    The remaining parts of the client: the chat window with its suggested
    questions, the source card nested in an answer bubble, and the loop of
    user events and settling requests that drives [handleSend]. *)
Module Session.
Import Frontend.

(** *** ChatWindow.tsx *)

(** The [text] fields of [SUGGESTED_QUESTIONS]. *)
Definition SUGGESTED_QUESTIONS : list jsstring :=
  [ utf16 "Apa syarat kelulusan di ITB?";
    utf16 "Bagaimana prosedur cuti akademik?";
    utf16 "Berapa SKS minimum per semester?" ].

(** What the window shows: the welcome screen with one button per
    suggested question, or the list of bubbles, each under its React key
    [msg.id]. *)
Inductive WindowView : Type :=
  | WelcomeView (suggestions : list jsstring)
  | MessagesView (bubbles : list (jsstring * Bubble)).

Definition ChatWindow (msgs : list ChatMessage) : WindowView :=
  if (List.length msgs =? 0)%nat then WelcomeView SUGGESTED_QUESTIONS
  else MessagesView ((λ msg, (id msg, MessageBubble msg)) <$> msgs).

(** *** MessageBubble.tsx, the nested source card *)

(** [{message.sources && <SourceCard sources={message.sources} />}]: only
    the answer branch mounts a card, and only when [sources] is set. *)
Definition bubble_card (b : Bubble) (expanded : bool) : option SourceCardView :=
  match b with
  | AnswerBubble _ (Some srcs) => SourceCard srcs expanded
  | _ => None
  end.

(** *** App.tsx, the component tree *)

(** The two ways the user can ask: a click on the [i]-th suggestion button
    ([onSuggestedQuestion={handleSend}]) and a submit of the form with the
    field holding [input] ([onSend={handleSend}], [disabled={isLoading}]). *)
Inductive UiEvent : Type :=
  | ClickSuggestion (i : nat)
  | SubmitForm (input : jsstring).

(** The argument with which the event calls [handleSend] in the rendered
    state [st], if it calls it at all: a suggestion button exists only on
    the welcome screen, and the form goes through [handleSubmit]. *)
Definition ui_question (st : AppState) (e : UiEvent) : option jsstring :=
  match e with
  | ClickSuggestion i =>
      match ChatWindow (messages st) with
      | WelcomeView qs => qs !! i
      | MessagesView _ => None
      end
  | SubmitForm input => onSend_call (handleSubmit input (appLoading st))
  end.

(** The state of the component together with the requests whose promise
    has not settled yet, named by their placeholder ids. *)
Record Session : Type := mkSession {
  app : AppState;
  in_flight : list jsstring;
}.

Definition initial : Session :=
  {| app := {| messages := []; appLoading := false |}; in_flight := [] |}.

(** One turn of the event loop.  Either a user event calls [handleSend],
    which runs up to its [await] ([crypto.randomUUID()] returns two ids
    that are new), or the promise of a request in flight settles with some
    outcome of [fetch] and the rest of [handleSend] runs.  Every turn sees
    the state the previous one left. *)
Inductive step : Session → Session → Prop :=
  | step_ask (s : Session) (e : UiEvent) (q uid lid : jsstring) :
      ui_question (app s) e = Some q →
      uid ≠ lid →
      uid ∉ id <$> messages (app s) →
      lid ∉ id <$> messages (app s) →
      step s {| app := handleSend_begin uid lid q (app s);
                in_flight := in_flight s ++ [lid] |}
  | step_settle (s : Session) (lid : jsstring) (f : FetchOutcome) :
      lid ∈ in_flight s →
      step s {| app := handleSend_complete lid (sendMessage f) (app s);
                in_flight := filter (λ l, l ≠ lid) (in_flight s) |}.

Definition reachable (s : Session) : Prop := rtc step initial s.

(** *** Transcripts *)

(** A question with its settled request, and a question still waiting. *)
Record Settled : Type := mkSettled {
  s_uid : jsstring;
  s_lid : jsstring;
  s_question : jsstring;
  s_outcome : Completion ChatResponse;
}.

Record Waiting : Type := mkWaiting {
  w_uid : jsstring;
  w_lid : jsstring;
  w_question : jsstring;
}.

Definition settled_messages (x : Settled) : list ChatMessage :=
  [userMessage (s_uid x) (s_question x);
   completion_message (s_lid x) (s_outcome x)].

Definition waiting_messages (w : option Waiting) : list ChatMessage :=
  match w with
  | Some w => [userMessage (w_uid w) (w_question w); loadingMessage (w_lid w)]
  | None => []
  end.

Definition transcript (past : list Settled) (w : option Waiting) : list ChatMessage :=
  (past ≫= settled_messages) ++ waiting_messages w.

(** The bubbles of a settled exchange: the question, then the error
    paragraph or the answer with its sources. *)
Definition settled_bubbles (x : Settled) : list Bubble :=
  [UserBubble (s_question x);
   match s_outcome x with
   | Returned r => AnswerBubble (answer r) (Some (sources r))
   | Threw _ => ErrorBubble error_text
   end].

Definition waiting_bubbles (w : option Waiting) : list Bubble :=
  match w with
  | Some w => [UserBubble (w_question w); LoadingBubble]
  | None => []
  end.

(** A question as the backend wants it: not empty, nothing to trim. *)
Definition well_formed_question (q : jsstring) : Prop :=
  q ≠ [] ∧ js_trim q = q.

(** What holds of every state the loop can reach. *)
Definition session_inv (s : Session) : Prop :=
  ∃ past w,
    messages (app s) = transcript past w
    ∧ in_flight s = w_lid <$> option_list w
    ∧ appLoading (app s) = bool_decide (is_Some w)
    ∧ NoDup (id <$> transcript past w)
    ∧ Forall well_formed_question
        ((s_question <$> past) ++ (w_question <$> option_list w)).

(** The settled exchanges [past] and the waiting question [w] describe the
    session [s]. *)
Definition describes (past : list Settled) (w : option Waiting) (s : Session) : Prop :=
  messages (app s) = transcript past w
  ∧ in_flight s = w_lid <$> option_list w
  ∧ appLoading (app s) = bool_decide (is_Some w)
  ∧ NoDup (id <$> transcript past w)
  ∧ Forall well_formed_question
      ((s_question <$> past) ++ (w_question <$> option_list w)).

(** *** Runs of the loop *)

(** What a turn of the loop did: the user event [e] called [handleSend]
    with the question [q], and [uid] and [lid] are the ids drawn for the two
    messages; or the request with the placeholder [lid] settled with the
    outcome [f] of [fetch]. *)
Inductive Turn : Type :=
  | Ask (e : UiEvent) (q uid lid : jsstring)
  | Settle (lid : jsstring) (f : FetchOutcome).

(** The turns taken from the initial state, in order, and the state they
    lead to.  The two rules are those of [step]. *)
Inductive run : list Turn → Session → Prop :=
  | run_initial : run [] initial
  | run_ask (ts : list Turn) (s : Session) (e : UiEvent) (q uid lid : jsstring) :
      run ts s →
      ui_question (app s) e = Some q →
      uid ≠ lid →
      uid ∉ id <$> messages (app s) →
      lid ∉ id <$> messages (app s) →
      run (ts ++ [Ask e q uid lid])
          {| app := handleSend_begin uid lid q (app s);
             in_flight := in_flight s ++ [lid] |}
  | run_settle (ts : list Turn) (s : Session) (lid : jsstring) (f : FetchOutcome) :
      run ts s →
      lid ∈ in_flight s →
      run (ts ++ [Settle lid f])
          {| app := handleSend_complete lid (sendMessage f) (app s);
             in_flight := filter (λ l, l ≠ lid) (in_flight s) |}.

(** The questions of a run in the order asked, each with the id of its
    placeholder, and the requests of a run in the order settled, each with
    what [sendMessage] made of the outcome. *)
Definition asked (ts : list Turn) : list (jsstring * jsstring) :=
  omap (λ t, match t with
             | Ask _ q _ lid => Some (q, lid)
             | Settle _ _ => None
             end) ts.

Definition settled (ts : list Turn) : list (jsstring * Completion ChatResponse) :=
  omap (λ t, match t with
             | Settle lid f => Some (lid, sendMessage f)
             | Ask _ _ _ _ => None
             end) ts.

(** The bubble of a settled request: the answer with its sources, or the
    error paragraph. *)
Definition outcome_bubble (c : Completion ChatResponse) : Bubble :=
  match c with
  | Returned r => AnswerBubble (answer r) (Some (sources r))
  | Threw _ => ErrorBubble error_text
  end.

(** The bubbles of a history: every question, in order, followed by the
    bubble of the outcome at the same position, and by the typing indicator
    when there is no outcome yet. *)
Fixpoint history_bubbles (qs : list jsstring) (outs : list (Completion ChatResponse))
    : list Bubble :=
  match qs with
  | [] => []
  | q :: qs' =>
      match outs with
      | o :: outs' => UserBubble q :: outcome_bubble o :: history_bubbles qs' outs'
      | [] => UserBubble q :: LoadingBubble :: history_bubbles qs' []
      end
  end.

(** Two sessions for the examples: a question typed into the form and
    waiting, and the same question answered with an error. *)
Definition waiting_session : Session :=
  {| app := handleSend_begin (utf16 "u1") (utf16 "l1") (utf16 "Halo") (app initial);
     in_flight := in_flight initial ++ [utf16 "l1"] |}.

Definition settled_session : Session :=
  {| app := handleSend_complete (utf16 "l1") (sendMessage FetchRejected)
              (app waiting_session);
     in_flight := filter (λ l, l ≠ utf16 "l1") (in_flight waiting_session) |}.

End Session.

(** * Part II: theorems *)

(** ** Facts about trimming *)
Module TextFacts.
Import Text.

Section Trim.
Context {A : Type} (ws : A → bool).

Lemma trim_start_all (l : list A) :
  forallb ws l = true → trim_start ws l = [].
Proof.
  induction l as [|c l IH]; simpl; [done|].
  destruct (ws c); simpl; [exact IH | discriminate].
Qed.

Lemma trim_start_app (l1 l2 : list A) :
  trim_start ws (l1 ++ l2) =
  if forallb ws l1 then trim_start ws l2 else trim_start ws l1 ++ l2.
Proof.
  induction l1 as [|c l1 IH]; simpl; [done|].
  destruct (ws c); simpl; [exact IH | done].
Qed.

Lemma trim_start_idemp (l : list A) :
  trim_start ws (trim_start ws l) = trim_start ws l.
Proof.
  induction l as [|c l IH]; simpl; [done|].
  destruct (ws c) eqn:Hc; [exact IH|]. simpl. by rewrite Hc.
Qed.

(** The result of [trim_start] is empty or begins with a character that is
    not white space. *)
Lemma trim_start_head (l : list A) :
  trim_start ws l = [] ∨
  ∃ c t, trim_start ws l = c :: t ∧ ws c = false.
Proof.
  induction l as [|c l IH]; simpl; [by left|].
  destruct (ws c) eqn:Hc; [exact IH|]. right. by exists c, l.
Qed.

Lemma trim_end_nil : trim_end ws [] = [].
Proof. done. Qed.

(** [trim_end] read from the front. *)
Lemma trim_end_cons (c : A) (l : list A) :
  trim_end ws (c :: l) =
  if ws c && forallb ws l then [] else c :: trim_end ws l.
Proof.
  unfold trim_end. rewrite reverse_cons, trim_start_app.
  assert (Hall : forallb ws (reverse l) = forallb ws l).
  { induction l as [|x l IH]; [done|].
    rewrite reverse_cons, forallb_app, IH. simpl. rewrite andb_true_r.
    apply andb_comm. }
  rewrite Hall. destruct (forallb ws l) eqn:Hl; simpl.
  - destruct (ws c); simpl; [done|].
    rewrite trim_start_all by (by rewrite Hall). done.
  - rewrite andb_false_r. by rewrite reverse_app.
Qed.

Lemma trim_end_idemp (l : list A) :
  trim_end ws (trim_end ws l) = trim_end ws l.
Proof.
  unfold trim_end. by rewrite reverse_involutive, trim_start_idemp.
Qed.

(** Trimming the end leaves a first character that is not white space in
    place, so the two halves of [trim] commute on its result. *)
Lemma trim_start_trim_end (l : list A) :
  trim_start ws (trim_end ws (trim_start ws l)) = trim_end ws (trim_start ws l).
Proof.
  destruct (trim_start_head l) as [->|(c & t & -> & Hc)]; [done|].
  rewrite trim_end_cons, Hc. simpl. by rewrite Hc.
Qed.

Lemma trim_idemp (l : list A) : trim ws (trim ws l) = trim ws l.
Proof.
  unfold trim. by rewrite trim_start_trim_end, trim_end_idemp.
Qed.

Lemma trim_all (l : list A) : forallb ws l = true → trim ws l = [].
Proof. intros H. unfold trim. by rewrite trim_start_all. Qed.

(** A text that begins with a character that is not white space keeps it. *)
Lemma trim_cons_keep (c : A) (l : list A) :
  ws c = false → trim ws (c :: l) = c :: trim_end ws l.
Proof.
  intros Hc. unfold trim. simpl. rewrite Hc.
  rewrite trim_end_cons, Hc. done.
Qed.

Lemma trim_nil_inv (l : list A) : trim ws l = [] → forallb ws l = true.
Proof.
  unfold trim. induction l as [|c l IH]; simpl; [done|].
  destruct (ws c) eqn:Hc; simpl; [exact IH|].
  rewrite trim_end_cons, Hc. done.
Qed.

End Trim.

End TextFacts.

(** ** The client *)
Module FrontendFacts.
Import Text TextFacts Frontend.

Lemma js_not_nil (s : jsstring) : js_not s = true ↔ s = [].
Proof. destruct s; simpl; split; congruence. Qed.

Lemma replace_by_id_length lid m prev :
  List.length (replace_by_id lid m prev) = List.length prev.
Proof. unfold replace_by_id. apply length_fmap. Qed.

Lemma replace_by_id_lookup lid m prev (i : nat) :
  replace_by_id lid m prev !! i =
  (λ msg, if decide (id msg = lid) then m else msg) <$> prev !! i.
Proof. unfold replace_by_id. apply list_lookup_fmap. Qed.

Lemma replace_by_id_app lid m l1 l2 :
  replace_by_id lid m (l1 ++ l2) = replace_by_id lid m l1 ++ replace_by_id lid m l2.
Proof. unfold replace_by_id. apply fmap_app. Qed.

(** Messages with another id are left alone. *)
Lemma replace_by_id_fresh lid m prev :
  lid ∉ id <$> prev → replace_by_id lid m prev = prev.
Proof.
  unfold replace_by_id. induction prev as [|x prev IH]; simpl; [done|].
  rewrite not_elem_of_cons. intros [Hx Hprev].
  rewrite decide_False by congruence. f_equal. by apply IH.
Qed.

Lemma completion_message_id lid c : id (completion_message lid c) = lid.
Proof. by destruct c. Qed.

(** With a placeholder id that no other message carries, the completion
    changes the placeholder and nothing else. *)
Lemma handleSend_complete_fresh uid lid question c (prev later : list ChatMessage) :
  lid ∉ id <$> prev → uid ≠ lid → lid ∉ id <$> later →
  replace_by_id lid (completion_message lid c)
    ((prev ++ [userMessage uid question; loadingMessage lid]) ++ later)
  = prev ++ [userMessage uid question; completion_message lid c] ++ later.
Proof.
  intros Hprev Hne Hlater.
  rewrite !replace_by_id_app, (replace_by_id_fresh _ _ _ Hprev),
    (replace_by_id_fresh _ _ _ Hlater).
  rewrite <- app_assoc. f_equal. unfold replace_by_id. simpl.
  rewrite decide_False by done. rewrite decide_True by done. done.
Qed.

(** X3.  The button is enabled exactly when a submit would send. *)
Lemma canSend_iff_sends (input : jsstring) (disabled : bool) :
  canSend input disabled = true ↔ is_Some (onSend_call (handleSubmit input disabled)).
Proof.
  unfold canSend, handleSubmit.
  destruct (js_trim input) as [|c t]; simpl.
  - split; [done|]. by intros [? ?].
  - destruct disabled; simpl.
    + split; [done|]. by intros [? ?].
    + split; [by eexists|done].
Qed.

(** C7 (query-time failure is distinguishable).  Whenever the chat request
    fails -- [fetch] rejects, or the response is not [ok] -- the message
    that replaces the placeholder is [errorMessage]: an assistant message
    with [isError] set and the fixed error text, which [MessageBubble]
    renders as the error paragraph.  Whenever [sendMessage] returns a
    response, the replacement is rendered as a normal answer with the
    response's sources.  The two renderings are never equal, also when the
    answer comes with no source at all.  In the list on the screen, a failed
    request shows as the question followed by the error bubble. *)
Theorem query_failure_distinguishable (lid : jsstring) (f : FetchOutcome) :
  (request_failed f = true →
     completion_message lid (sendMessage f) = errorMessage lid
     ∧ isError (errorMessage lid) = Some true
     ∧ content (errorMessage lid) = error_text
     ∧ MessageBubble (completion_message lid (sendMessage f)) = ErrorBubble error_text)
  ∧ (∀ r c, f = FetchResolved r → ok r = true → resp_chat r = Some c →
       isError (completion_message lid (sendMessage f)) = None
       ∧ MessageBubble (completion_message lid (sendMessage f))
         = AnswerBubble (answer c) (Some (sources c)))
  ∧ (∀ f' r, request_failed f = true → sendMessage f' = Returned r →
       MessageBubble (completion_message lid (sendMessage f))
       ≠ MessageBubble (completion_message lid (sendMessage f')))
  ∧ (∀ uid question st,
       request_failed f = true → lid ∉ id <$> messages st → uid ≠ lid →
       MessageBubble <$> messages (handleSend uid lid question f st)
       = (MessageBubble <$> messages st)
         ++ [UserBubble question; ErrorBubble error_text]).
Proof.
  assert (Hfail : request_failed f = true →
                  completion_message lid (sendMessage f) = errorMessage lid).
  { destruct f as [|r]; simpl; [done|]. intros ->. simpl.
    by destruct (detail_of (error_body r)). }
  split; [|split; [|split]].
  - intros Hf. rewrite (Hfail Hf). done.
  - intros r c -> Hok Hc. simpl. rewrite Hok, Hc. done.
  - intros f' r Hf Hr. rewrite (Hfail Hf), Hr. discriminate.
  - intros uid question st Hf Hst Hne. unfold handleSend. simpl.
    pose proof (handleSend_complete_fresh uid lid question (sendMessage f)
                  (messages st) [] Hst Hne (not_elem_of_nil _)) as Hc.
    rewrite !app_nil_r in Hc. rewrite Hc, (Hfail Hf), fmap_app. done.
Qed.

(** A rejected [fetch] and an answer without sources, side by side. *)
Lemma query_failure_distinguishable_witness :
  MessageBubble (completion_message (utf16 "b") (sendMessage FetchRejected))
  ≠ MessageBubble (completion_message (utf16 "b")
      (sendMessage (FetchResolved
        {| ok := true; resp_error := None;
           resp_chat := Some {| answer := error_text; sources := [];
                                model := utf16 "gpt-4o-mini" |} |}))).
Proof.
  refine (proj1 (proj2 (proj2 (query_failure_distinguishable (utf16 "b") FetchRejected)))
            _ _ _ _); reflexivity.
Defined.

(** The card shows one entry per citation, in order; an entry's page label
    is the number [page + 1] when the citation's [page] is a number and is
    left out when it is [null]. *)
Lemma SourceCard_page_label (srcs : list Source) (i : nat) (s : Source) :
  srcs !! i = Some s →
  ∃ entries,
    SourceCard srcs true
    = Some {| card_count := List.length srcs; card_entries := Some entries |}
    ∧ List.length entries = List.length srcs
    ∧ entries !! i
      = Some {| entry_document := document s;
                entry_page_label := (λ p, js_add p 1%float) <$> page s;
                entry_snippet := content_snippet s |}.
Proof.
  intros Hi. exists (render_source <$> srcs). split; [|split].
  - unfold SourceCard. destruct srcs; [done|]. done.
  - apply length_fmap.
  - rewrite list_lookup_fmap, Hi. simpl. unfold render_source.
    by destruct (page s).
Qed.

(** The label is computed on binary64 numbers: page 41 is shown as 42, and
    from 2^53 on the sum is rounded. *)
Example page_label_41 :
  entry_page_label (render_source (mkSource (utf16 "a.pdf") (Some 41%float) []))
  = Some 42%float.
Proof. reflexivity. Qed.

Example page_label_rounds :
  entry_page_label
    (render_source (mkSource (utf16 "a.pdf") (Some 9007199254740992%float) []))
  = Some 9007199254740992%float.
Proof. reflexivity. Qed.

(** C9 (the submit handler).  [onSend] is called exactly when the trimmed
    input is not empty and the component is not disabled; its argument is
    the trimmed input, which is not empty and is its own trimmed form; the
    input state is the empty string afterwards.  A submit that does not send
    leaves the input as it was. *)
Theorem handleSubmit_sends_trimmed (input : jsstring) (disabled : bool) :
  (is_Some (onSend_call (handleSubmit input disabled))
     ↔ js_trim input ≠ [] ∧ disabled = false)
  ∧ (∀ arg, onSend_call (handleSubmit input disabled) = Some arg →
       arg = js_trim input ∧ arg ≠ [] ∧ js_trim arg = arg
       ∧ input_after (handleSubmit input disabled) = [])
  ∧ (onSend_call (handleSubmit input disabled) = None →
       input_after (handleSubmit input disabled) = input)
  ∧ default_prevented (handleSubmit input disabled) = true.
Proof.
  unfold handleSubmit.
  destruct (js_not (js_trim input)) eqn:Hn; simpl.
  - apply js_not_nil in Hn.
    split; [split; [intros [? ?]; done | intros [? _]; done]|].
    split; [intros ? [=]|]. done.
  - assert (Hne : js_trim input ≠ []).
    { intros H. apply js_not_nil in H. congruence. }
    destruct disabled; simpl.
    + split; [split; [intros [? ?]; done | intros [_ ?]; done]|].
      split; [intros ? [=]|]. done.
    + split; [split; [done | by eexists]|].
      split; [|done].
      intros ? [= <-]. repeat split; [done|apply trim_idemp].
Qed.

Lemma handleSubmit_sends_trimmed_witness :
  utf16 "Apa syarat kelulusan?" = js_trim (utf16 "  Apa syarat kelulusan? ")
  ∧ utf16 "Apa syarat kelulusan?" ≠ []
  ∧ js_trim (utf16 "Apa syarat kelulusan?") = utf16 "Apa syarat kelulusan?"
  ∧ input_after (handleSubmit (utf16 "  Apa syarat kelulusan? ") false) = [].
Proof.
  exact (proj1 (proj2 (handleSubmit_sends_trimmed
                         (utf16 "  Apa syarat kelulusan? ") false))
           (utf16 "Apa syarat kelulusan?") eq_refl).
Defined.

(** C10 (the frame of [handleSend]).  The first half appends exactly two
    messages, the user message and then the loading placeholder.  The
    completion, in whatever state it finds the list, keeps its length and
    order: position by position, a message whose id is the placeholder's is
    replaced by the completion message (which carries that id) and every
    other message is unchanged.  With a placeholder id that no other message
    carries, the list after the request is the old list, the user message
    and the completion message. *)
Theorem handleSend_frame (uid lid question : jsstring)
    (c : Completion ChatResponse) (st : AppState) :
  messages (handleSend_begin uid lid question st)
    = messages st ++ [userMessage uid question; loadingMessage lid]
  ∧ List.length (messages (handleSend_begin uid lid question st))
    = (List.length (messages st) + 2)%nat
  ∧ (∀ st' : AppState,
       List.length (messages (handleSend_complete lid c st'))
       = List.length (messages st')
       ∧ ∀ (i : nat) msg, messages st' !! i = Some msg →
           messages (handleSend_complete lid c st') !! i
           = Some (if decide (id msg = lid) then completion_message lid c else msg))
  ∧ id (completion_message lid c) = lid
  ∧ (∀ later : list ChatMessage,
       lid ∉ id <$> messages st → uid ≠ lid → lid ∉ id <$> later →
       messages (handleSend_complete lid c
                   {| messages := messages (handleSend_begin uid lid question st) ++ later;
                      appLoading := true |})
       = messages st ++ [userMessage uid question; completion_message lid c] ++ later).
Proof.
  split; [done|]. split.
  { simpl. rewrite length_app. done. }
  split.
  { intros st'. simpl. split; [apply replace_by_id_length|].
    intros i msg Hi. by rewrite replace_by_id_lookup, Hi. }
  split; [apply completion_message_id|].
  intros later Hst Hne Hlater. simpl.
  by apply handleSend_complete_fresh.
Qed.

Lemma handleSend_frame_witness :
  messages (handleSend (utf16 "u2") (utf16 "l2") (utf16 "Berapa SKS minimum?")
              FetchRejected
              {| messages := [userMessage (utf16 "u1") (utf16 "Halo");
                              errorMessage (utf16 "l1")];
                 appLoading := false |})
  = [userMessage (utf16 "u1") (utf16 "Halo"); errorMessage (utf16 "l1");
     userMessage (utf16 "u2") (utf16 "Berapa SKS minimum?");
     errorMessage (utf16 "l2")].
Proof.
  pose proof (proj2 (proj2 (proj2 (proj2
    (handleSend_frame (utf16 "u2") (utf16 "l2") (utf16 "Berapa SKS minimum?")
       (sendMessage FetchRejected)
       {| messages := [userMessage (utf16 "u1") (utf16 "Halo");
                       errorMessage (utf16 "l1")];
          appLoading := false |})))) []) as H.
  rewrite !app_nil_r in H. apply H.
  - simpl. rewrite !not_elem_of_cons. repeat split; try discriminate.
    apply not_elem_of_nil.
  - discriminate.
  - apply not_elem_of_nil.
Defined.

End FrontendFacts.

(** ** The ingestion pipeline *)
Module PipelineFacts.
Import Text TextFacts Pipeline.

(** *** Strings and lines *)













(** *** Trimming a text *)

Lemma is_empty_true (s : string) : is_empty s = true ↔ s = "".
Proof. destruct s; simpl; split; congruence. Qed.

Lemma is_empty_false (s : string) : is_empty s = false ↔ s ≠ "".
Proof. destruct s; simpl; split; congruence. Qed.

Lemma trim_idemp_string (s : string) : trim (trim s) = trim s.
Proof.
  unfold trim. by rewrite list_ascii_of_string_of_list_ascii, trim_idemp.
Qed.

(** A text that begins with a character that is not white space keeps it
    under trimming. *)
Lemma trim_keeps_head (c : ascii) (s : string) :
  Ascii.is_space c = false → ∃ s', trim (String c s) = String c s'.
Proof.
  intros Hc. unfold trim. simpl. rewrite trim_cons_keep by done.
  simpl. eauto.
Qed.

(** A clause marker opens with a parenthesis. *)
Lemma clause_marker_paren (m : string) (n : nat) :
  clause_marker m = Some n → ∃ m', m = String "("%char m'.
Proof.
  destruct m as [|a m']; [done|].
  destruct a as [[] [] [] [] [] [] [] []]; try discriminate. eauto.
Qed.

(** *** Index sequences *)

Lemma strictly_increasing_tail (a : nat) (l : list nat) :
  strictly_increasing (a :: l) → strictly_increasing l.
Proof. destruct l; simpl; tauto. Qed.

Lemma strictly_increasing_above (l : list nat) (a : nat) :
  strictly_increasing (a :: l) → Forall (λ b, a < b)%nat l.
Proof.
  revert a. induction l as [|b l IH]; intros a; [constructor|].
  intros [Hab Hl]. constructor; [done|].
  eapply Forall_impl; [exact (IH _ Hl)|]. simpl. lia.
Qed.

Lemma strictly_increasing_cons (a : nat) (l : list nat) :
  Forall (λ b, a < b)%nat l → strictly_increasing l → strictly_increasing (a :: l).
Proof. destruct l as [|b l]; [done|]. intros Ha Hl. split; [by inversion Ha|done]. Qed.

Lemma strictly_increasing_app_r (l1 l2 : list nat) :
  strictly_increasing (l1 ++ l2) → strictly_increasing l2.
Proof.
  induction l1 as [|a l1 IH]; [done|]. intros Hl. apply IH.
  by apply strictly_increasing_tail in Hl.
Qed.

Lemma strictly_increasing_app_l (l1 l2 : list nat) :
  strictly_increasing (l1 ++ l2) → strictly_increasing l1.
Proof.
  induction l1 as [|a l1 IH]; [done|]. rewrite <- app_comm_cons. intros Hl.
  apply strictly_increasing_cons.
  - apply strictly_increasing_above in Hl. by apply Forall_app in Hl as [? _].
  - apply IH. by apply strictly_increasing_tail in Hl.
Qed.

Lemma consecutive_tail (a : nat) (l : list nat) :
  consecutive (a :: l) → consecutive l.
Proof. destruct l; simpl; tauto. Qed.

Lemma consecutive_app_r (l1 l2 : list nat) :
  consecutive (l1 ++ l2) → consecutive l2.
Proof.
  induction l1 as [|a l1 IH]; [done|]. intros Hl. apply IH.
  by apply consecutive_tail in Hl.
Qed.

Lemma consecutive_app_l (l1 l2 : list nat) :
  consecutive (l1 ++ l2) → consecutive l1.
Proof.
  induction l1 as [|a l1 IH]; [done|]. rewrite <- app_comm_cons.
  destruct l1 as [|b l1]; [done|]. intros [Hab Hl]. split; [done|]. by apply IH.
Qed.

Lemma strictly_increasing_seq (n k : nat) : strictly_increasing (seq n k).
Proof.
  revert n. induction k as [|k IH]; intros n; [done|].
  simpl. destruct k as [|k]; [done|]. split; [simpl; lia|apply IH].
Qed.

(** Dropping elements keeps an increasing sequence increasing. *)
Lemma strictly_increasing_filter {A : Type} (f : A → nat)
    (P : A → Prop) `{!∀ x, Decision (P x)} (l : list A) :
  strictly_increasing (f <$> l) →
  strictly_increasing (f <$> filter P l).
Proof.
  induction l as [|x l IH]; [done|]. rewrite fmap_cons. intros Hl.
  rewrite filter_cons. destruct (decide (P x)).
  - rewrite fmap_cons. apply strictly_increasing_cons.
    + apply strictly_increasing_above in Hl.
      rewrite Forall_fmap in *. rewrite Forall_forall in *.
      intros y Hy. apply Hl. by apply list_elem_of_filter in Hy as [_ ?].
    + apply IH. by apply strictly_increasing_tail in Hl.
  - apply IH. by apply strictly_increasing_tail in Hl.
Qed.

Lemma strictly_increasing_below (l : list nat) (a : nat) :
  strictly_increasing (l ++ [a]) → Forall (λ b, b < a)%nat l.
Proof.
  induction l as [|x l IH]; [constructor|]. rewrite <- app_comm_cons. intros Hl.
  constructor.
  - apply strictly_increasing_above in Hl. apply Forall_app in Hl as [_ Ha].
    by inversion Ha.
  - apply IH. by apply strictly_increasing_tail in Hl.
Qed.

(** In an increasing sequence nothing lies strictly between two
    neighbours. *)
Lemma strictly_increasing_neighbours (l1 l2 : list nat) (a b k : nat) :
  strictly_increasing (l1 ++ a :: b :: l2) → (a < k < b)%nat →
  k ∉ l1 ++ a :: b :: l2.
Proof.
  intros Hl Hk Hin.
  assert (H1 : Forall (λ x, x < a)%nat l1).
  { apply strictly_increasing_below.
    apply (strictly_increasing_app_l _ (b :: l2)). by rewrite <- app_assoc. }
  assert (H2 : Forall (λ x, b < x)%nat l2).
  { apply strictly_increasing_above.
    apply strictly_increasing_app_r in Hl. by apply strictly_increasing_tail in Hl. }
  rewrite elem_of_app, !elem_of_cons in Hin. rewrite Forall_forall in H1, H2.
  destruct Hin as [Hin|[->|[->|Hin]]];
    [specialize (H1 _ Hin)| | |specialize (H2 _ Hin)]; lia.
Qed.

(** Two neighbours of a list, with what is around them. *)
Lemma lookup_neighbours {A : Type} (l : list A) (i : nat) (a b : A) :
  l !! i = Some a → l !! S i = Some b →
  l = take i l ++ a :: b :: drop (S (S i)) l.
Proof.
  intros Ha Hb. rewrite <- (take_drop_middle l i a Ha) at 1.
  by rewrite (drop_S l b (S i) Hb).
Qed.


(** *** The PageExtractor and the PageFilter *)

Section Filter.
Context `{Heuristics}.

Lemma extract_indices (sps : list SourcePage) (pages : list Page) :
  extract (Some sps) = inr pages → index <$> pages = seq 0 (List.length sps).
Proof.
  intros [= <-]. rewrite fmap_imap.
  rewrite (imap_ext _ (λ j _, id (0 + j))) by done.
  rewrite imap_seq. by rewrite list_fmap_id.
Qed.

Lemma page_filter_indices (pages : list Page) :
  index <$> page_filter pages = index <$> filter (λ p, negb (discard p)) pages.
Proof.
  unfold page_filter. rewrite <- list_fmap_compose.
  apply list_fmap_ext. done.
Qed.

(** The filtered pages of a document carry increasing indices. *)
Lemma page_filter_increasing (sps : list SourcePage) (pages : list Page) :
  extract (Some sps) = inr pages →
  strictly_increasing (index <$> page_filter pages).
Proof.
  intros Hex. rewrite page_filter_indices.
  apply strictly_increasing_filter.
  rewrite (extract_indices _ _ Hex). apply strictly_increasing_seq.
Qed.


End Filter.

(** *** The ContinuationMerger *)

Section Merger.
Context `{Heuristics}.

Lemma foldl_absorb_primary (run : list Page) (acc : MergedBlock) :
  primary_page_index (foldl absorb acc run) = primary_page_index acc.
Proof. revert acc. induction run as [|q run IH]; intros acc; simpl; [done|]. by rewrite IH. Qed.

Lemma foldl_absorb_merged_from (run : list Page) (acc : MergedBlock) :
  merged_from (foldl absorb acc run) = merged_from acc ++ (index <$> run).
Proof.
  revert acc. induction run as [|q run IH]; intros acc; simpl.
  - by rewrite app_nil_r.
  - rewrite IH. simpl. by rewrite <- app_assoc.
Qed.


Lemma block_of_pages (p : Page) (run : list Page) :
  block_pages (block_of p run) = index p :: (index <$> run).
Proof.
  unfold block_pages, block_of.
  by rewrite foldl_absorb_primary, foldl_absorb_merged_from.
Qed.

(** Every block is a page of the sequence together with the run of
    continuation pages that follows it. *)
Lemma merge_from_blocks (ps : list Page) (acc b : MergedBlock) :
  b ∈ merge_from acc ps →
  (∃ run l2, ps = run ++ l2 ∧ b = foldl absorb acc run
             ∧ Forall (λ q, is_continuation_page q = true) run)
  ∨ (∃ l1 p run l2, ps = l1 ++ p :: run ++ l2 ∧ b = block_of p run
                    ∧ Forall (λ q, is_continuation_page q = true) run).
Proof.
  revert acc. induction ps as [|p ps IH]; intros acc; simpl.
  - rewrite list_elem_of_singleton. intros ->. left. by exists [], [].
  - destruct (is_continuation_page p) eqn:Hp.
    + intros Hb. destruct (IH _ Hb) as [(run & l2 & -> & -> & Hrun)
                                       |(l1 & p' & run & l2 & -> & -> & Hrun)].
      * left. exists (p :: run), l2. split; [done|]. split; [done|]. by constructor.
      * right. by exists (p :: l1), p', run, l2.
    + rewrite elem_of_cons. intros [->|Hb].
      * left. by exists [], (p :: ps).
      * destruct (IH _ Hb) as [(run & l2 & -> & -> & Hrun)
                              |(l1 & p' & run & l2 & -> & -> & Hrun)].
        -- right. by exists [], p, run, l2.
        -- right. by exists (p :: l1), p', run, l2.
Qed.

Lemma merge_blocks (ps : list Page) (b : MergedBlock) :
  b ∈ merge ps →
  ∃ l1 p run l2, ps = l1 ++ p :: run ++ l2 ∧ b = block_of p run
                 ∧ Forall (λ q, is_continuation_page q = true) run.
Proof.
  destruct ps as [|p0 ps]; simpl; [by rewrite elem_of_nil|].
  intros Hb. destruct (merge_from_blocks _ _ _ Hb)
    as [(run & l2 & -> & -> & Hrun)|(l1 & p' & run & l2 & -> & -> & Hrun)].
  - by exists [], p0, run, l2.
  - by exists (p0 :: l1), p', run, l2.
Qed.








(** A page that opens with a clause marker starts a block of its own. *)
Lemma marker_page_not_continuation (p : Page) (m : string) (ls : list string) (n : nat) :
  lines (raw_text p) = m :: ls → clause_marker m = Some n →
  is_continuation_page p = false.
Proof.
  intros Hls Hn. unfold is_continuation_page, first_non_empty_line. rewrite Hls.
  destruct (clause_marker_paren _ _ Hn) as [m' ->].
  destruct (trim_keeps_head "(" m') as [t Ht]; [done|].
  simpl. unfold is_blank. rewrite Ht. simpl.
  unfold classify. destruct (bool_decide (is_Some (article_label _))); [done|].
  rewrite Hn. rewrite bool_decide_eq_true_2 by eauto. done.
Qed.


End Merger.

(** *** The HierarchicalChunker *)

Section Chunker.
Context `{Heuristics}.

Lemma close_segment_elem doc b ctx cl seg (c : Chunk) :
  c ∈ close_segment doc b ctx cl seg ↔
  trim (join_lines seg) ≠ ""
  ∧ c = {| text := trim (join_lines seg); article_context := ctx;
           clause_number := cl; page := primary_page_index b;
           source_document := doc; merged_page_indices := merged_from b |}.
Proof.
  unfold close_segment. destruct (is_empty (trim (join_lines seg))) eqn:He.
  - apply is_empty_true in He. rewrite elem_of_nil.
    split; [intros []|intros [? _]; done].
  - apply is_empty_false in He. rewrite list_elem_of_singleton.
    split; [by intros ->|by intros [_ ->]].
Qed.

(** One step of the scan, by the kind of line. *)
Lemma chunk_lines_declaration doc b ctx cl seg l lab ls :
  article_label l = Some lab →
  chunk_lines doc b ctx cl seg (l :: ls)
  = (close_segment doc b ctx cl seg ++ (chunk_lines doc b (Some lab) None [] ls).1,
     (chunk_lines doc b (Some lab) None [] ls).2).
Proof. intros Hl. simpl. rewrite Hl. by destruct (chunk_lines _ _ _ _ _ ls). Qed.

Lemma chunk_lines_marker doc b ctx cl seg l n ls :
  article_label l = None → clause_marker l = Some n →
  chunk_lines doc b ctx cl seg (l :: ls)
  = (close_segment doc b ctx cl seg ++ (chunk_lines doc b ctx (Some n) [l] ls).1,
     (chunk_lines doc b ctx (Some n) [l] ls).2).
Proof. intros Hl Hn. simpl. rewrite Hl, Hn. by destruct (chunk_lines _ _ _ _ _ ls). Qed.

Lemma chunk_lines_plain doc b ctx cl seg l ls :
  is_split_point l = false →
  chunk_lines doc b ctx cl seg (l :: ls) = chunk_lines doc b ctx cl (seg ++ [l]) ls.
Proof.
  unfold is_split_point. rewrite orb_false_iff, !bool_decide_eq_false.
  intros [Hl Hn]. simpl.
  destruct (article_label l); [exfalso; apply Hl; eauto|].
  destruct (clause_marker l); [exfalso; apply Hn; eauto|]. done.
Qed.

Lemma is_split_point_cases (l : string) :
  (∃ lab, article_label l = Some lab)
  ∨ (article_label l = None ∧ ∃ n, clause_marker l = Some n)
  ∨ is_split_point l = false.
Proof.
  unfold is_split_point.
  destruct (article_label l) as [lab|]; [left; eauto|].
  destruct (clause_marker l) as [n|]; [right; left; eauto|].
  right; right. rewrite orb_false_iff, !bool_decide_eq_false.
  split; by intros [? ?].
Qed.

(** Every chunk comes out of [close_segment]. *)
Lemma chunk_lines_elem doc b (ls : list string) ctx cl seg (c : Chunk) :
  c ∈ (chunk_lines doc b ctx cl seg ls).1 →
  ∃ ctx' cl' seg', c ∈ close_segment doc b ctx' cl' seg'.
Proof.
  revert ctx cl seg. induction ls as [|l ls IH]; intros ctx cl seg; [simpl; eauto|].
  destruct (is_split_point_cases l) as [[lab Hl]|[[Hl [n Hn]]|Hl]].
  - rewrite (chunk_lines_declaration _ _ _ _ _ _ _ _ Hl). simpl.
    rewrite elem_of_app. intros [?|?]; eauto.
  - rewrite (chunk_lines_marker _ _ _ _ _ _ _ _ Hl Hn). simpl.
    rewrite elem_of_app. intros [?|?]; eauto.
  - rewrite (chunk_lines_plain _ _ _ _ _ _ _ Hl). eauto.
Qed.

(** What every chunk of a block carries, whatever the context. *)
Lemma chunk_block_stamp doc ctx b (c : Chunk) :
  c ∈ (chunk_block doc ctx b).1 →
  page c = primary_page_index b
  ∧ merged_page_indices c = merged_from b
  ∧ source_document c = doc
  ∧ text c ≠ ""
  ∧ trim (text c) = text c.
Proof.
  intros Hc. apply chunk_lines_elem in Hc as (ctx' & cl' & seg' & Hc).
  apply close_segment_elem in Hc as [Hne ->]. simpl.
  repeat split; try done. apply trim_idemp_string.
Qed.

Lemma chunk_blocks_cons doc ctx b bs :
  chunk_blocks doc ctx (b :: bs)
  = ((chunk_block doc ctx b).1 ++ (chunk_blocks doc (chunk_block doc ctx b).2 bs).1,
     (chunk_blocks doc (chunk_block doc ctx b).2 bs).2).
Proof.
  simpl. destruct (chunk_block doc ctx b) as [cs ctx']. simpl.
  by destruct (chunk_blocks doc ctx' bs).
Qed.


(** Every chunk of the document is a chunk of one of its blocks. *)
Lemma chunk_blocks_elem doc (bs : list MergedBlock) ctx (c : Chunk) :
  c ∈ (chunk_blocks doc ctx bs).1 →
  ∃ b ctx', b ∈ bs ∧ c ∈ (chunk_block doc ctx' b).1.
Proof.
  revert ctx. induction bs as [|b bs IH]; intros ctx.
  - simpl. by rewrite elem_of_nil.
  - rewrite chunk_blocks_cons. simpl. rewrite elem_of_app. intros [Hc|Hc].
    + exists b, ctx. split; [apply list_elem_of_here|done].
    + destruct (IH _ Hc) as (b' & ctx' & Hb' & Hc').
      exists b', ctx'. split; [by apply list_elem_of_further|done].
Qed.


(** The scan of a prefix leaves a state from which the rest is scanned. *)
Lemma chunk_lines_app doc b (A : list string) ctx cl seg :
  ∃ out ctx' cl' seg', ∀ B,
    chunk_lines doc b ctx cl seg (A ++ B)
    = (out ++ (chunk_lines doc b ctx' cl' seg' B).1,
       (chunk_lines doc b ctx' cl' seg' B).2).
Proof.
  revert ctx cl seg. induction A as [|l A IH]; intros ctx cl seg.
  - exists [], ctx, cl, seg. intros B. simpl. by destruct (chunk_lines _ _ _ _ _ B).
  - destruct (is_split_point_cases l) as [[lab Hl]|[[Hl [n Hn]]|Hl]].
    + destruct (IH (Some lab) None []) as (out & ctx' & cl' & seg' & HB).
      exists (close_segment doc b ctx cl seg ++ out), ctx', cl', seg'. intros B.
      rewrite <- app_comm_cons, (chunk_lines_declaration _ _ _ _ _ _ _ _ Hl), HB.
      simpl. by rewrite app_assoc.
    + destruct (IH ctx (Some n) [l]) as (out & ctx' & cl' & seg' & HB).
      exists (close_segment doc b ctx cl seg ++ out), ctx', cl', seg'. intros B.
      rewrite <- app_comm_cons, (chunk_lines_marker _ _ _ _ _ _ _ _ Hl Hn), HB.
      simpl. by rewrite app_assoc.
    + destruct (IH ctx cl (seg ++ [l])) as (out & ctx' & cl' & seg' & HB).
      exists out, ctx', cl', seg'. intros B.
      by rewrite <- app_comm_cons, (chunk_lines_plain _ _ _ _ _ _ _ Hl), HB.
Qed.

Lemma declarations_cons_label (l lab : string) (ls : list string) :
  article_label l = Some lab → declarations (l :: ls) = lab :: declarations ls.
Proof. intros Hl. unfold declarations. simpl. by rewrite Hl. Qed.

Lemma declarations_cons_none (l : string) (ls : list string) :
  article_label l = None → declarations (l :: ls) = declarations ls.
Proof. intros Hl. unfold declarations. simpl. by rewrite Hl. Qed.

Lemma declarations_cons_plain (l : string) (ls : list string) :
  is_split_point l = false → declarations (l :: ls) = declarations ls.
Proof.
  unfold is_split_point. rewrite orb_false_iff, !bool_decide_eq_false.
  intros [Hl _]. apply declarations_cons_none.
  destruct (article_label l); [exfalso; apply Hl; eauto|done].
Qed.

(** The contexts a scan stamps: the one it starts with, or the label of a
    declaration it passes; and it ends in the last of those. *)
Lemma chunk_lines_context doc b (ls : list string) ctx cl seg :
  (∀ c, c ∈ (chunk_lines doc b ctx cl seg ls).1 →
     article_context c = ctx
     ∨ ∃ lab, lab ∈ declarations ls ∧ article_context c = Some lab)
  ∧ (chunk_lines doc b ctx cl seg ls).2
    = match last (declarations ls) with Some lab => Some lab | None => ctx end.
Proof.
  revert ctx cl seg. induction ls as [|l ls IH]; intros ctx cl seg.
  - simpl. split; [|done]. intros c Hc. left.
    by apply close_segment_elem in Hc as [_ ->].
  - destruct (is_split_point_cases l) as [[lab Hl]|[[Hl [n Hn]]|Hl]].
    + rewrite (chunk_lines_declaration _ _ _ _ _ _ _ _ Hl),
        (declarations_cons_label _ _ _ Hl). simpl.
      destruct (IH (Some lab) None []) as [IH1 IH2]. split.
      * intros c. rewrite elem_of_app. intros [Hc|Hc].
        -- left. by apply close_segment_elem in Hc as [_ ->].
        -- right. destruct (IH1 c Hc) as [Hctx|(lab' & Hlab' & Hctx)].
           ++ exists lab. split; [apply list_elem_of_here|done].
           ++ exists lab'. split; [by apply list_elem_of_further|done].
      * rewrite IH2, last_cons. by destruct (last (declarations ls)).
    + rewrite (chunk_lines_marker _ _ _ _ _ _ _ _ Hl Hn),
        (declarations_cons_none _ _ Hl). simpl.
      destruct (IH ctx (Some n) [l]) as [IH1 IH2]. split; [|done].
      intros c. rewrite elem_of_app. intros [Hc|Hc]; [|by apply IH1].
      left. by apply close_segment_elem in Hc as [_ ->].
    + rewrite (chunk_lines_plain _ _ _ _ _ _ _ Hl),
        (declarations_cons_plain _ _ Hl). apply IH.
Qed.

(** A block without a declaration stamps the context it is given and hands
    it on. *)
Lemma chunk_block_no_declaration doc ctx b :
  block_declarations b = [] →
  (∀ c, c ∈ (chunk_block doc ctx b).1 → article_context c = ctx)
  ∧ (chunk_block doc ctx b).2 = ctx.
Proof.
  unfold block_declarations, chunk_block, block_context. intros Hb. rewrite Hb.
  destruct (chunk_lines_context doc b (lines (block_text b)) ctx None []) as [H1 H2].
  rewrite Hb in *. split; [|done].
  intros c Hc. destruct (H1 c Hc) as [?|(lab & Hlab & _)]; [done|].
  by apply elem_of_nil in Hlab.
Qed.

(** A block with a declaration stamps labels of its own declarations only,
    and hands on the last one. *)
Lemma chunk_block_declaration doc ctx b lab :
  last (block_declarations b) = Some lab →
  (∀ c, c ∈ (chunk_block doc ctx b).1 →
     ∃ lab', lab' ∈ block_declarations b ∧ article_context c = Some lab')
  ∧ (chunk_block doc ctx b).2 = Some lab.
Proof.
  unfold block_declarations, chunk_block, block_context. intros Hb.
  destruct (declarations (lines (block_text b))) as [|lab0 labs] eqn:Hd; [done|].
  destruct (chunk_lines_context doc b (lines (block_text b)) (Some lab0) None [])
    as [H1 H2].
  rewrite Hd in *. rewrite Hb in H2. split; [|done].
  intros c Hc. destruct (H1 c Hc) as [Hctx|?]; [|done].
  exists lab0. split; [apply list_elem_of_here|done].
Qed.

Lemma chunk_blocks_no_declaration doc ctx (bs : list MergedBlock) :
  Forall (λ m, block_declarations m = []) bs →
  (∀ c, c ∈ (chunk_blocks doc ctx bs).1 → article_context c = ctx)
  ∧ (chunk_blocks doc ctx bs).2 = ctx.
Proof.
  induction 1 as [|b bs Hb Hbs IH]; [simpl; split; [by intros ? ?%elem_of_nil|done]|].
  destruct (chunk_block_no_declaration doc ctx b Hb) as [H1 H2].
  rewrite chunk_blocks_cons, H2. simpl. destruct IH as [IH1 IH2].
  split; [|done]. intros c. rewrite elem_of_app. intros [?|?]; auto.
Qed.

(** Inside a block, the segments after a declaration carry its label until
    the next declaration. *)
Lemma chunk_block_after_declaration doc ctx b (A B : list string) (d lab : string) :
  lines (block_text b) = A ++ d :: B →
  article_label d = Some lab →
  ∃ out1,
    (chunk_block doc ctx b).1 = out1 ++ (chunk_lines doc b (Some lab) None [] B).1
    ∧ (declarations B = [] →
       ∀ c, c ∈ (chunk_lines doc b (Some lab) None [] B).1 →
            article_context c = Some lab).
Proof.
  intros Hls Hd. unfold chunk_block. rewrite Hls.
  destruct (chunk_lines_app doc b A (block_context ctx (A ++ d :: B)) None [])
    as (out & ctx' & cl' & seg' & HB).
  rewrite HB, (chunk_lines_declaration _ _ _ _ _ _ _ _ Hd). simpl.
  exists (out ++ close_segment doc b ctx' cl' seg'). split; [by rewrite app_assoc|].
  intros HBd c Hc.
  destruct (chunk_lines_context doc b B (Some lab) None []) as [H1 _].
  destruct (H1 c Hc) as [?|(lab' & Hlab' & _)]; [done|].
  rewrite HBd in Hlab'. by apply elem_of_nil in Hlab'.
Qed.




(** *** The sections of a block *)









End Chunker.

(** *** The store *)

Lemma store_chunks_snoc (store : gmap Identity (string * Metadata)) cs c :
  store_chunks store (cs ++ [c]) = upsert (store_chunks store cs) c.
Proof. unfold store_chunks. apply foldl_snoc. Qed.

(** Identities that no chunk carries keep their entry. *)
Lemma store_chunks_other (store : gmap Identity (string * Metadata)) cs (k : Identity) :
  k ∉ identity <$> cs → store_chunks store cs !! k = store !! k.
Proof.
  induction cs as [|c cs IH] using rev_ind; [done|].
  rewrite fmap_app, not_elem_of_app. simpl. rewrite not_elem_of_cons.
  intros [Hcs [Hc _]]. rewrite store_chunks_snoc. unfold upsert.
  rewrite lookup_insert_ne by done. by apply IH.
Qed.

(** The entry of an identity that some chunk carries does not depend on
    what the store held before. *)
Lemma store_chunks_same (s1 s2 : gmap Identity (string * Metadata)) cs (k : Identity) :
  k ∈ identity <$> cs → store_chunks s1 cs !! k = store_chunks s2 cs !! k.
Proof.
  induction cs as [|c cs IH] using rev_ind; [by rewrite elem_of_nil|].
  rewrite fmap_app, elem_of_app. simpl. rewrite list_elem_of_singleton.
  intros Hk. rewrite !store_chunks_snoc. unfold upsert.
  destruct (decide (identity c = k)) as [->|Hne].
  - by rewrite !lookup_insert_eq.
  - rewrite !lookup_insert_ne by done. apply IH.
    destruct Hk as [Hk|Hk]; [done|]. by destruct Hne.
Qed.

Lemma store_chunks_idemp (store : gmap Identity (string * Metadata)) cs :
  store_chunks (store_chunks store cs) cs = store_chunks store cs.
Proof.
  apply map_eq. intros k.
  destruct (decide (k ∈ identity <$> cs)) as [Hk|Hk].
  - by apply store_chunks_same.
  - by rewrite !store_chunks_other.
Qed.

Lemma store_chunks_dom (store : gmap Identity (string * Metadata)) cs :
  dom (store_chunks store cs) = dom store ∪ list_to_set (identity <$> cs).
Proof.
  induction cs as [|c cs IH] using rev_ind.
  - simpl. set_solver.
  - rewrite store_chunks_snoc. unfold upsert. rewrite dom_insert_L, IH.
    rewrite fmap_app, list_to_set_app_L. simpl. set_solver.
Qed.


(** *** The claims *)





(** C3 (idempotent re-ingestion).  Ingesting a document into the store and
    then ingesting the same unchanged document again gives the same chunks
    (the same count in the statistics) and leaves the store exactly as the
    first ingestion left it: the same identities with the same entries, so
    no entry is duplicated.  The identities stored for the document are
    those of its chunks, next to what the store held before. *)
Theorem reingestion_idempotent `{Heuristics}
    (store store1 : gmap Identity (string * Metadata))
    (doc : string) (source : option (list SourcePage)) (stats1 : IngestStats) :
  ingest store doc source = inr (store1, stats1) →
  ingest store1 doc source = inr (store1, stats1)
  ∧ ∃ cs, pipeline doc source = inr cs
          ∧ chunks_produced stats1 = List.length cs
          ∧ dom store1 = dom store ∪ list_to_set (identity <$> cs)
          ∧ ∀ c, c ∈ cs → ∃ c', c' ∈ cs ∧ identity c' = identity c
                          ∧ store1 !! identity c
                            = Some (embeddable_text c', metadata_record c').
Proof.
  unfold ingest, pipeline. destruct (extract source) as [e|pages]; [done|].
  intros [= <- <-]. simpl. rewrite store_chunks_idemp.
  split; [done|].
  exists (chunks_of_pages doc pages).
  split; [done|]. split; [done|]. split; [apply store_chunks_dom|].
  generalize (chunks_of_pages doc pages). intros cs.
  induction cs as [|c0 cs IH] using rev_ind; [intros c; by rewrite elem_of_nil|].
  intros c. rewrite store_chunks_snoc. unfold upsert.
  destruct (decide (identity c0 = identity c)) as [Heq|Hne].
  - intros _. exists c0. rewrite <- Heq, lookup_insert_eq.
    split; [|done]. rewrite elem_of_app, list_elem_of_singleton. by right.
  - rewrite elem_of_app, list_elem_of_singleton.
    intros [Hc| ->]; [|done]. destruct (IH c Hc) as (c' & Hc' & Hid & Hlk).
    exists c'. rewrite lookup_insert_ne by done.
    split; [|done]. rewrite elem_of_app. by left.
Qed.

(** C4 (non-empty output).  No chunk of a document has a text that is empty
    or that trimming would change or empty; and a segment with nothing left
    after trimming yields no chunk. *)
Theorem chunk_text_nonempty `{Heuristics} (doc : string) :
  (∀ ctx bs c, c ∈ (chunk_blocks doc ctx bs).1 →
     text c ≠ "" ∧ trim (text c) = text c ∧ is_blank (text c) = false)
  ∧ (∀ source cs c, pipeline doc source = inr cs → c ∈ cs →
       trim (text c) ≠ "")
  ∧ (∀ b ctx cl seg, trim (join_lines seg) = "" →
       close_segment doc b ctx cl seg = []).
Proof.
  assert (Hblocks : ∀ ctx bs c, c ∈ (chunk_blocks doc ctx bs).1 →
            text c ≠ "" ∧ trim (text c) = text c ∧ is_blank (text c) = false).
  { intros ctx bs c Hc.
    apply chunk_blocks_elem in Hc as (b & ctx' & _ & Hc).
    apply chunk_block_stamp in Hc as (_ & _ & _ & Hne & Htrim).
    split; [done|]. split; [done|].
    unfold is_blank. rewrite Htrim. by apply is_empty_false. }
  split; [exact Hblocks|]. split.
  - intros source cs c. unfold pipeline.
    destruct (extract source) as [e|pages]; [done|]. intros [= <-] Hc.
    destruct (Hblocks _ _ _ Hc) as (Hne & Htrim & _). by rewrite Htrim.
  - intros b ctx cl seg Hseg. unfold close_segment. by rewrite Hseg.
Qed.

(** C5, as the merger has it.  For every block of the merger: every index
    in [merged_from] is the index of a page that was classified as a
    continuation (so the sequence is empty unless a continuation was
    detected); the primary page followed by [merged_from] is an unbroken run
    of the filtered sequence (the merger absorbs the very next filtered page
    and never skips one).  When the filtered sequence is increasing, the run
    is strictly increasing, no filtered page lies between two neighbours of
    the run, and an index is the immediate successor of the one before it
    whenever that successor is a filtered page.  For an extracted document
    this reads: each index of the run is the immediate successor of the one
    before it, unless every page in between was discarded by the filter. *)
Theorem merged_from_is_a_run `{Heuristics} (ps : list Page) (b : MergedBlock) :
  b ∈ merge ps →
  (∀ i, i ∈ merged_from b →
        ∃ q, q ∈ ps ∧ index q = i ∧ is_continuation_page q = true)
  ∧ (∃ l1 l2, index <$> ps = l1 ++ block_pages b ++ l2)
  ∧ (strictly_increasing (index <$> ps) →
       strictly_increasing (block_pages b)
       ∧ ∀ j a a', block_pages b !! j = Some a → block_pages b !! S j = Some a' →
           (a < a')%nat
           ∧ (∀ k, (a < k < a')%nat → k ∉ index <$> ps)
           ∧ (S a ∈ index <$> ps → a' = S a))
  ∧ (∀ sps pages, extract (Some sps) = inr pages → ps = page_filter pages →
       strictly_increasing (block_pages b)
       ∧ ∀ j a a', block_pages b !! j = Some a → block_pages b !! S j = Some a' →
           a' = S a
           ∨ ((S a < a')%nat
              ∧ ∀ k, (a < k < a')%nat →
                     ∃ p, p ∈ pages ∧ index p = k ∧ discard p = true)).
Proof.
  intros Hb.
  destruct (merge_blocks _ _ Hb) as (l1 & p & run & l2 & -> & -> & Hrun).
  assert (Hidx : index <$> l1 ++ p :: run ++ l2
                 = (index <$> l1) ++ block_pages (block_of p run) ++ (index <$> l2)).
  { rewrite block_of_pages, fmap_app, fmap_cons, fmap_app. done. }
  assert (Hinc : strictly_increasing (index <$> l1 ++ p :: run ++ l2) →
                 strictly_increasing (block_pages (block_of p run))).
  { rewrite Hidx. intros Hs.
    apply strictly_increasing_app_r in Hs. by apply strictly_increasing_app_l in Hs. }
  assert (Hgap : strictly_increasing (index <$> l1 ++ p :: run ++ l2) →
            ∀ j a a', block_pages (block_of p run) !! j = Some a →
              block_pages (block_of p run) !! S j = Some a' →
              (a < a')%nat
              ∧ (∀ k, (a < k < a')%nat → k ∉ index <$> l1 ++ p :: run ++ l2)
              ∧ a' ∈ index <$> l1 ++ p :: run ++ l2).
  { intros Hs j a a' Ha Ha'.
    pose proof (lookup_neighbours _ _ _ _ Ha Ha') as Hsplit.
    rewrite Hidx in *. rewrite Hsplit in *.
    set (front := take j (block_pages (block_of p run))) in *.
    set (back := drop (S (S j)) (block_pages (block_of p run))) in *.
    clearbody front back. clear Hsplit Ha Ha'.
    replace ((index <$> l1) ++ (front ++ a :: a' :: back) ++ (index <$> l2))
      with (((index <$> l1) ++ front) ++ a :: a' :: (back ++ (index <$> l2))) in *
      by (by rewrite <- !app_assoc).
    split; [|split].
    - apply strictly_increasing_app_r in Hs. by destruct Hs.
    - intros k Hk. by apply strictly_increasing_neighbours.
    - rewrite elem_of_app, !elem_of_cons. auto. }
  split; [|split; [|split]].
  - intros i. unfold block_of. rewrite foldl_absorb_merged_from. simpl.
    rewrite list_elem_of_fmap. intros (q & -> & Hq). exists q.
    split; [|split; [done|]].
    + rewrite elem_of_app, elem_of_cons, elem_of_app. auto.
    + by rewrite Forall_forall in Hrun; apply Hrun.
  - by exists (index <$> l1), (index <$> l2).
  - intros Hs. split; [by apply Hinc|]. intros j a a' Ha Ha'.
    destruct (Hgap Hs j a a' Ha Ha') as (Hlt & Hnone & _).
    split; [done|]. split; [done|]. intros HS.
    destruct (decide (a' = S a)) as [|Hne]; [done|].
    destruct (Hnone (S a)); [lia|done].
  - intros sps pages Hex Hps.
    assert (Hs : strictly_increasing (index <$> l1 ++ p :: run ++ l2)).
    { rewrite Hps. by eapply page_filter_increasing. }
    split; [by apply Hinc|]. intros j a a' Ha Ha'.
    destruct (Hgap Hs j a a' Ha Ha') as (Hlt & Hnone & Hin).
    destruct (decide (a' = S a)) as [|Hne]; [by left|]. right.
    split; [lia|]. intros k Hk.
    assert (Hk' : k ∈ index <$> pages).
    { rewrite Hps, page_filter_indices in Hin.
      apply list_elem_of_fmap in Hin as (q & -> & Hq).
      apply list_elem_of_filter in Hq as [_ Hq].
      assert (Hq' : index q ∈ index <$> pages) by (apply list_elem_of_fmap; eauto).
      rewrite (extract_indices _ _ Hex) in *.
      rewrite elem_of_seq in *. lia. }
    apply list_elem_of_fmap in Hk' as (q & -> & Hq).
    exists q. split; [done|]. split; [done|].
    destruct (discard q) eqn:Hd; [done|].
    destruct (Hnone (index q) Hk). rewrite Hps, page_filter_indices.
    apply list_elem_of_fmap. exists q. split; [done|].
    apply list_elem_of_filter. by rewrite Hd.
Qed.




(** *** The example documents *)




Section Reference.
#[local] Existing Instance reference_heuristics.

(** The scenarios of section 8, evaluated. *)
Example scenario_merge :
  merge split_clause_pages
  = [ {| primary_page_index := 7;
         block_text :=
           "Pasal 21 Kelulusan" +:+ nl
           +:+ "(1) Gelar diberikan kepada mahasiswa yang telah menyelesaikan seluruh mata kuliah wajib."
           +:+ nl +:+ "(2) Batas maksimum SKS ditetapkan oleh fakultas.";
         merged_from := [8] |} ].
Proof. reflexivity. Qed.

Example scenario_two_clauses :
  (chunk_block "peraturan.pdf" None pasal14_block).1
  = [ {| text := "(1) Setiap mahasiswa wajib...";
         article_context := Some "Pasal 14 Rencana Studi Semester";
         clause_number := Some 1; page := 12;
         source_document := "peraturan.pdf"; merged_page_indices := [] |};
      {| text := "(2) Batas maksimum SKS...";
         article_context := Some "Pasal 14 Rencana Studi Semester";
         clause_number := Some 2; page := 12;
         source_document := "peraturan.pdf"; merged_page_indices := [] |} ].
Proof. reflexivity. Qed.

Example scenario_whole_article :
  (chunk_block "peraturan.pdf" None pasal8_block).1
  = [ {| text := "Bahasa pengantar adalah Bahasa Indonesia.";
         article_context := Some "Pasal 8 Bahasa Pengantar";
         clause_number := None; page := 5;
         source_document := "peraturan.pdf"; merged_page_indices := [] |} ].
Proof. reflexivity. Qed.





Lemma reingestion_idempotent_witness :
  ∃ store1 stats1,
    ingest ∅ "peraturan.pdf" (Some gap_document) = inr (store1, stats1)
    ∧ ingest store1 "peraturan.pdf" (Some gap_document) = inr (store1, stats1).
Proof.
  eexists _, _. split; [reflexivity|].
  refine (proj1 (reingestion_idempotent ∅ _ "peraturan.pdf" (Some gap_document) _ _)).
  reflexivity.
Defined.

Lemma chunk_text_nonempty_witness :
  Forall (λ c, text c ≠ "" ∧ trim (text c) = text c ∧ is_blank (text c) = false)
         (chunk_blocks "peraturan.pdf" None [pasal14_block; followup_block]).1.
Proof.
  apply Forall_forall. intros c Hc.
  exact (proj1 (chunk_text_nonempty "peraturan.pdf") None
           [pasal14_block; followup_block] c Hc).
Defined.

(** The block of [gap_document]: pages 0, 1 and 3; between 1 and 3 lies
    page 2, which the filter discarded. *)
Lemma merged_from_is_a_run_witness :
  ∃ pages b,
    extract (Some gap_document) = inr pages
    ∧ b ∈ merge (page_filter pages)
    ∧ block_pages b = [0; 1; 3]%nat
    ∧ strictly_increasing (block_pages b)
    ∧ ∀ j a a', block_pages b !! j = Some a → block_pages b !! S j = Some a' →
        a' = S a
        ∨ ((S a < a')%nat
           ∧ ∀ k, (a < k < a')%nat →
                  ∃ p, p ∈ pages ∧ index p = k ∧ discard p = true).
Proof.
  eexists _, _. split; [reflexivity|].
  split; [vm_compute; apply list_elem_of_here|].
  split; [reflexivity|].
  refine (proj2 (proj2 (proj2 (merged_from_is_a_run (page_filter _) _ _)))
            gap_document _ eq_refl eq_refl).
  vm_compute. apply list_elem_of_here.
Defined.

(** C5, as stated, fails.  The filter discards page 2 of [gap_document],
    the merger absorbs pages 1 and 3 into the block of page 0, and 3 is not
    the successor of 1.  The same holds whatever the heuristics are of a
    filtered sequence whose pages 1 and 3 are empty and whose page 2 was
    discarded: pages without a non-empty line are folded into the current
    block. *)
Lemma merged_from_skips_discarded_page :
  (∃ pages b,
     extract (Some gap_document) = inr pages
     ∧ b ∈ merge (page_filter pages)
     ∧ primary_page_index b = 0%nat
     ∧ merged_from b = [1; 3]%nat
     ∧ ¬ consecutive (merged_from b))
  ∧ strictly_increasing (index <$> empty_pages_around_gap)
  ∧ (∀ heuristics : Heuristics,
       @merge heuristics empty_pages_around_gap
       = [ {| primary_page_index := 0;
              block_text := "(1) Mahasiswa wajib hadir.  ";
              merged_from := [1; 3] |} ]).
Proof.
  split; [|split].
  - eexists _, _. split; [reflexivity|]. split.
    + vm_compute. apply list_elem_of_here.
    + split; [reflexivity|]. split; [reflexivity|]. simpl. lia.
  - simpl. lia.
  - intros heuristics. reflexivity.
Qed.




End Reference.

End PipelineFacts.

(** ** The client as a whole *)
Module SessionFacts.
Import Text TextFacts Frontend FrontendFacts Session.

(** *** Trimming, read as a cut *)

Section TrimCut.
Context {A : Type} (ws : A → bool).

Lemma forallb_reverse (l : list A) : forallb ws (reverse l) = forallb ws l.
Proof.
  induction l as [|x l IH]; [done|].
  rewrite reverse_cons, forallb_app, IH. simpl. rewrite andb_true_r.
  apply andb_comm.
Qed.

Lemma trim_start_cut (l : list A) :
  ∃ pre, l = pre ++ trim_start ws l ∧ forallb ws pre = true.
Proof.
  induction l as [|c l (pre & Hl & Hpre)]; [by exists []|]. simpl.
  destruct (ws c) eqn:Hc.
  - exists (c :: pre). simpl. rewrite Hc, Hpre. by rewrite <- Hl.
  - by exists [].
Qed.

Lemma trim_end_cut (l : list A) :
  ∃ post, l = trim_end ws l ++ post ∧ forallb ws post = true.
Proof.
  destruct (trim_start_cut (reverse l)) as (pre & Hl & Hpre).
  exists (reverse pre). split; [|by rewrite forallb_reverse].
  unfold trim_end. rewrite <- reverse_app, <- Hl. by rewrite reverse_involutive.
Qed.

Lemma trim_end_last (l : list A) (c : A) :
  last (trim_end ws l) = Some c → ws c = false.
Proof.
  unfold trim_end. rewrite last_reverse.
  destruct (trim_start_head ws (reverse l)) as [->|(c' & t & -> & Hc')]; [done|].
  by intros [= <-].
Qed.

Lemma trim_head (l : list A) (c : A) :
  head (trim ws l) = Some c → ws c = false.
Proof.
  unfold trim.
  destruct (trim_start_head ws l) as [->|(c' & t & -> & Hc')]; [done|].
  rewrite trim_end_cons, Hc'. simpl. by intros [= <-].
Qed.

(** The text is its trimmed form between two runs of white space, and the
    trimmed form neither begins nor ends with white space. *)
Lemma trim_cut (l : list A) :
  ∃ pre post,
    l = pre ++ trim ws l ++ post
    ∧ forallb ws pre = true ∧ forallb ws post = true
    ∧ (∀ c, head (trim ws l) = Some c → ws c = false)
    ∧ (∀ c, last (trim ws l) = Some c → ws c = false).
Proof.
  destruct (trim_start_cut l) as (pre & Hl & Hpre).
  destruct (trim_end_cut (trim_start ws l)) as (post & Hr & Hpost).
  exists pre, post. split; [|split; [done|split; [done|split]]].
  - unfold trim. by rewrite <- Hr.
  - apply trim_head.
  - apply trim_end_last.
Qed.

End TrimCut.

(** *** The form *)

Lemma handleSubmit_call (input : jsstring) (disabled : bool) (q : jsstring) :
  onSend_call (handleSubmit input disabled) = Some q →
  disabled = false ∧ q = js_trim input ∧ q ≠ []
  ∧ input_after (handleSubmit input disabled) = [].
Proof.
  unfold handleSubmit. destruct (js_trim input) as [|c t] eqn:Ht; simpl; [done|].
  destruct disabled; simpl; [done|]. by intros [= <-].
Qed.

(** X1.  The question sent is the content of the field without the white space
    around it: the field is the question between two runs of white space,
    and the question neither begins nor ends with white space. *)
Theorem submitted_question_is_the_core (input : jsstring) (disabled : bool)
    (q : jsstring) :
  onSend_call (handleSubmit input disabled) = Some q →
  ∃ pre post,
    input = pre ++ q ++ post
    ∧ forallb js_whitespace pre = true ∧ forallb js_whitespace post = true
    ∧ (∀ c, head q = Some c → js_whitespace c = false)
    ∧ (∀ c, last q = Some c → js_whitespace c = false).
Proof.
  intros (_ & -> & _)%handleSubmit_call. apply trim_cut.
Qed.

Lemma submitted_question_is_the_core_witness :
  ∃ pre post,
    utf16 "  Apa itu SKS? " = pre ++ utf16 "Apa itu SKS?" ++ post
    ∧ forallb js_whitespace pre = true ∧ forallb js_whitespace post = true
    ∧ (∀ c, head (utf16 "Apa itu SKS?") = Some c → js_whitespace c = false)
    ∧ (∀ c, last (utf16 "Apa itu SKS?") = Some c → js_whitespace c = false).
Proof.
  exact (submitted_question_is_the_core (utf16 "  Apa itu SKS? ") false
           (utf16 "Apa itu SKS?") eq_refl).
Defined.

(** X2.  With the form enabled, a submit sends nothing exactly when the field is
    empty or holds white space only; the field then keeps its content. *)
Theorem blank_input_is_not_sent (input : jsstring) :
  (onSend_call (handleSubmit input false) = None
   ↔ forallb js_whitespace input = true)
  ∧ (onSend_call (handleSubmit input false) = None →
     input_after (handleSubmit input false) = input).
Proof.
  unfold handleSubmit, js_trim.
  destruct (trim js_whitespace input) as [|c t] eqn:Ht; simpl.
  - split; [|done]. split; [|done]. intros _. by apply trim_nil_inv.
  - split; [|done]. split; [done|]. intros Hall.
    by rewrite (trim_all _ _ Hall) in Ht.
Qed.

Lemma blank_input_is_not_sent_witness :
  onSend_call (handleSubmit (utf16 "   ") false) = None.
Proof.
  exact (proj2 (proj1 (blank_input_is_not_sent (utf16 "   "))) eq_refl).
Defined.

(** X4.  A submit that sends empties the field, so submitting again at once
    sends nothing and finds the button disabled. *)
Theorem second_submit_sends_nothing (input : jsstring) (disabled disabled' : bool) :
  is_Some (onSend_call (handleSubmit input disabled)) →
  onSend_call (handleSubmit (input_after (handleSubmit input disabled)) disabled') = None
  ∧ canSend (input_after (handleSubmit input disabled)) disabled' = false.
Proof.
  intros [q (_ & _ & _ & ->)%handleSubmit_call]. done.
Qed.

Lemma second_submit_sends_nothing_witness :
  onSend_call (handleSubmit (input_after (handleSubmit (utf16 " Halo ") false)) false)
  = None
  ∧ canSend (input_after (handleSubmit (utf16 " Halo ") false)) false = false.
Proof.
  refine (second_submit_sends_nothing (utf16 " Halo ") false false _).
  by eexists.
Defined.

(** *** The API client *)

(** X5.  [sendMessage] returns a response exactly for an [ok] reply whose
    body parses.  A reply that is not [ok] always throws: the TypeError of
    [error.detail] exactly when its body is the JSON value [null]; otherwise
    an [Error] whose argument is truthy, namely the member [detail] of the
    body when the body is an object and that member is truthy (a non-empty
    string, but also an array, an object, [true] or a non-zero number), and
    the default text in every other case, in particular when the body is
    not JSON. *)
Theorem sendMessage_outcomes (f : FetchOutcome) :
  (∀ c, sendMessage f = Returned c
        ↔ ∃ r, f = FetchResolved r ∧ ok r = true ∧ resp_chat r = Some c)
  ∧ (∀ r, f = FetchResolved r → ok r = false →
       (sendMessage f = Threw DetailOfNull ↔ resp_error r = Some JNull)
       ∧ (resp_error r ≠ Some JNull →
          ∃ reason, sendMessage f = Threw (HttpError reason)
                    ∧ js_truthy reason = true
                    ∧ (reason = default_reason
                       ∨ ∃ members, resp_error r = Some (JObject members)
                                    ∧ get_member (utf16 "detail") members = Some reason))
       ∧ (∀ members d, resp_error r = Some (JObject members) →
            get_member (utf16 "detail") members = Some d → js_truthy d = true →
            sendMessage f = Threw (HttpError d))
       ∧ (resp_error r = None → sendMessage f = Threw (HttpError default_reason))).
Proof.
  split.
  - intros c. split.
    + destruct f as [|r]; simpl; [done|].
      destruct (ok r) eqn:Hok; simpl.
      * destruct (resp_chat r) as [c'|] eqn:Hc; [|done].
        intros [= <-]. eauto.
      * by destruct (detail_of (error_body r)).
    + intros (r & -> & Hok & Hc). simpl. by rewrite Hok, Hc.
  - intros r -> Hok. simpl. rewrite Hok. simpl. unfold error_body.
    split; [|split; [|split]].
    + destruct (resp_error r) as [[| | | | |members]|]; simpl; split; try done.
    + intros Hnull.
      destruct (resp_error r) as [[| | | | |members]|]; simpl; try done;
        try (exists default_reason; split; [done|]; split; [done|]; by left).
      destruct (get_member (utf16 "detail") members) as [d|] eqn:Hd; simpl.
      * destruct (js_truthy d) eqn:Ht.
        -- exists d. split; [done|]. split; [done|]. right. eauto.
        -- exists default_reason. split; [done|]. split; [done|]. by left.
      * exists default_reason. split; [done|]. split; [done|]. by left.
    + intros members d -> Hd Ht. simpl. by rewrite Hd; simpl; rewrite Ht.
    + by intros ->.
Qed.

Lemma sendMessage_outcomes_witness :
  sendMessage
    (FetchResolved
       (mkHttpResponse false
          (Some (JObject [(utf16 "detail", JString (utf16 "Vector store kosong"))])) None))
  = Threw (HttpError (JString (utf16 "Vector store kosong"))).
Proof.
  exact (proj1 (proj2 (proj2
           (proj2 (sendMessage_outcomes
                     (FetchResolved
                        (mkHttpResponse false
                           (Some (JObject [(utf16 "detail",
                                            JString (utf16 "Vector store kosong"))]))
                           None)))
              _ eq_refl eq_refl)))
           [(utf16 "detail", JString (utf16 "Vector store kosong"))]
           (JString (utf16 "Vector store kosong")) eq_refl eq_refl eq_refl).
Defined.

(** What the error path does with bodies that are not the documented
    [{detail: string}]: an empty list as [detail] is truthy and becomes the
    argument of [Error] (its message is then the empty string); a body
    [null] ends in the TypeError; [detail: 0] gives the default text. *)
Example sendMessage_detail_list :
  sendMessage (FetchResolved
    (mkHttpResponse false (Some (JObject [(utf16 "detail", JArray [])])) None))
  = Threw (HttpError (JArray [])).
Proof. reflexivity. Qed.

Example sendMessage_body_null :
  sendMessage (FetchResolved (mkHttpResponse false (Some JNull) None))
  = Threw DetailOfNull.
Proof. reflexivity. Qed.

Example sendMessage_detail_zero :
  sendMessage (FetchResolved
    (mkHttpResponse false (Some (JObject [(utf16 "detail", JNumber 0%float)])) None))
  = Threw (HttpError default_reason).
Proof. reflexivity. Qed.

(** *** The completion of a request *)

(** X6.  A completion keeps the ids of the list, position by position, whatever
    the outcome and whatever ids the list holds: the React keys of the
    bubbles do not change. *)
Theorem completion_keeps_ids (lid : jsstring) (c : Completion ChatResponse)
    (st : AppState) :
  id <$> messages (handleSend_complete lid c st) = id <$> messages st.
Proof.
  simpl. unfold replace_by_id. rewrite <- list_fmap_compose.
  apply list_fmap_ext. intros i m _. simpl.
  destruct (decide (id m = lid)) as [->|]; [|done].
  apply completion_message_id.
Qed.

(** X7.  A completion whose placeholder is not in the list (no message carries
    its id) leaves every message as it is. *)
Theorem completion_without_placeholder (lid : jsstring)
    (c : Completion ChatResponse) (st : AppState) :
  lid ∉ id <$> messages st →
  messages (handleSend_complete lid c st) = messages st.
Proof. intros Hlid. simpl. by apply replace_by_id_fresh. Qed.

Lemma completion_without_placeholder_witness :
  messages (handleSend_complete (utf16 "l9") (sendMessage FetchRejected)
              (app settled_session))
  = messages (app settled_session).
Proof.
  refine (completion_without_placeholder (utf16 "l9") _ (app settled_session) _).
  simpl. rewrite !not_elem_of_cons. repeat split; try discriminate.
  apply not_elem_of_nil.
Defined.

(** *** The source card of a bubble *)

(** X8.  The bubble that takes the placeholder's place shows a source card
    exactly when the request returned a response with at least one source;
    the card's counter is the number of sources.  The bubbles of a question
    and of a placeholder show none. *)
Theorem answer_card_iff_sources (lid : jsstring) (f : FetchOutcome) (expanded : bool) :
  (∀ v, bubble_card (MessageBubble (completion_message lid (sendMessage f))) expanded
        = Some v →
        ∃ c, sendMessage f = Returned c ∧ sources c ≠ []
             ∧ card_count v = List.length (sources c))
  ∧ (∀ c, sendMessage f = Returned c → sources c ≠ [] →
       is_Some (bubble_card (MessageBubble (completion_message lid (sendMessage f)))
                  expanded))
  ∧ (∀ uid question, bubble_card (MessageBubble (userMessage uid question)) expanded = None)
  ∧ bubble_card (MessageBubble (loadingMessage lid)) expanded = None.
Proof.
  split; [|split; [|done]].
  - intros v. destruct (sendMessage f) as [c|e]; simpl; [|done].
    unfold SourceCard. destruct (sources c) as [|x l] eqn:Hs; simpl; [done|].
    intros [= <-]. exists c. by rewrite Hs.
  - intros c -> Hs. simpl. unfold SourceCard.
    destruct (sources c); [done|]. by eexists.
Qed.

(** *** The event loop *)

Lemma suggested_questions_well_formed :
  Forall well_formed_question SUGGESTED_QUESTIONS.
Proof. repeat constructor; discriminate. Qed.

(** Whatever the user does, [handleSend] is called with a question that is
    not empty and has no white space around it. *)
Lemma ui_question_well_formed (st : AppState) (e : UiEvent) (q : jsstring) :
  ui_question st e = Some q → well_formed_question q.
Proof.
  destruct e as [i|input]; simpl.
  - unfold ChatWindow. destruct (List.length (messages st) =? 0)%nat; [|done].
    intros Hq. pose proof suggested_questions_well_formed as Hall.
    rewrite Forall_forall in Hall. apply Hall.
    by eapply list_elem_of_lookup_2.
  - intros (_ & -> & Hne & _)%handleSubmit_call. split; [done|].
    apply trim_idemp.
Qed.

(** A user event reaches [handleSend] only when the form is enabled or the
    welcome screen is showing. *)
Lemma ui_question_idle (st : AppState) (e : UiEvent) (q : jsstring) :
  ui_question st e = Some q → appLoading st = false ∨ messages st = [].
Proof.
  destruct e as [i|input]; simpl.
  - unfold ChatWindow. destruct (messages st); [by right|done].
  - intros (-> & _)%handleSubmit_call. by left.
Qed.

Lemma transcript_nil_inv (past : list Settled) (w : option Waiting) :
  transcript past w = [] → past = [] ∧ w = None.
Proof.
  unfold transcript. destruct past as [|x past]; [|done].
  by destruct w.
Qed.

Lemma transcript_settle (past : list Settled) (x : Settled) :
  transcript (past ++ [x]) None
  = (past ≫= settled_messages) ++ settled_messages x.
Proof.
  unfold transcript. rewrite bind_app. simpl. by rewrite !app_nil_r.
Qed.

Lemma transcript_ids_settle (past : list Settled) (w : Waiting)
    (c : Completion ChatResponse) :
  id <$> transcript (past ++ [mkSettled (w_uid w) (w_lid w) (w_question w) c]) None
  = id <$> transcript past (Some w).
Proof.
  rewrite transcript_settle. unfold transcript. rewrite !fmap_app. f_equal.
  simpl. by rewrite completion_message_id.
Qed.

(** Two messages of a list with distinct ids are equal when their ids are. *)
Lemma same_id_same_message (l : list ChatMessage) (m m' : ChatMessage) :
  NoDup (id <$> l) → m ∈ l → m' ∈ l → id m = id m' → m = m'.
Proof.
  induction l as [|x l IH]; [by rewrite elem_of_nil|].
  rewrite fmap_cons, NoDup_cons, !elem_of_cons. intros [Hx Hnd].
  assert (Hin : ∀ y, y ∈ l → id y ≠ id x).
  { intros y Hy Heq. apply Hx. rewrite <- Heq. apply list_elem_of_fmap. eauto. }
  intros [->|Hm] [->|Hm'] Heq; [done| | |by apply IH].
  - by destruct (Hin _ Hm').
  - by destruct (Hin _ Hm).
Qed.

(** A question asked in a described session: nothing was waiting, and the
    new question waits. *)
Lemma ask_describes (s : Session) (e : UiEvent) (q uid lid : jsstring)
    (past : list Settled) (w : option Waiting) :
  describes past w s →
  ui_question (app s) e = Some q →
  uid ≠ lid →
  uid ∉ id <$> messages (app s) →
  lid ∉ id <$> messages (app s) →
  w = None
  ∧ describes past (Some (mkWaiting uid lid q))
      {| app := handleSend_begin uid lid q (app s);
         in_flight := in_flight s ++ [lid] |}.
Proof.
  intros (Hm & Hf & Hl & Hnd & Hq) Hask Hne Huid Hlid.
  assert (Hw : w = None).
  { destruct (ui_question_idle _ _ _ Hask) as [Hidle|Hnil].
    - rewrite Hidle in Hl. destruct w; [|done].
      by rewrite bool_decide_eq_true_2 in Hl by eauto.
    - rewrite Hnil in Hm. symmetry in Hm. by apply transcript_nil_inv in Hm as [_ ?]. }
  subst w. split; [done|]. unfold transcript in Hm, Hnd. simpl in Hm, Hnd, Hf.
  rewrite app_nil_r in Hm, Hnd. unfold describes. simpl.
  split; [by rewrite Hm|]. split; [by rewrite Hf|].
  split; [done|]. split.
  + unfold transcript. simpl. rewrite fmap_app. apply NoDup_app.
    rewrite <- Hm in *. split; [done|]. split.
    * intros x Hx. simpl. rewrite !elem_of_cons, elem_of_nil.
      intros [->|[->|[]]]; done.
    * simpl. apply NoDup_cons. split; [|apply NoDup_singleton].
      by rewrite list_elem_of_singleton.
  + simpl in Hq. rewrite app_nil_r in Hq. apply Forall_app. split; [done|].
    simpl. constructor; [|constructor]. by eapply ui_question_well_formed.
Qed.

(** A request settling in a described session: it is the request of the
    waiting question, which joins the settled exchanges with its outcome. *)
Lemma settle_describes (s : Session) (lid : jsstring) (f : FetchOutcome)
    (past : list Settled) (w : option Waiting) :
  describes past w s →
  lid ∈ in_flight s →
  ∃ w0, w = Some w0 ∧ lid = w_lid w0
        ∧ describes
            (past ++ [mkSettled (w_uid w0) (w_lid w0) (w_question w0) (sendMessage f)])
            None
            {| app := handleSend_complete lid (sendMessage f) (app s);
               in_flight := filter (λ l, l ≠ lid) (in_flight s) |}.
Proof.
  intros (Hm & Hf & Hl & Hnd & Hq) Hin.
  rewrite Hf in Hin. destruct w as [w|]; simpl in Hin; [|by apply elem_of_nil in Hin].
  apply list_elem_of_singleton in Hin as ->.
  exists w. split; [done|]. split; [done|].
  pose proof Hnd as Hnd'. unfold transcript in Hnd'. simpl in Hnd'.
  rewrite fmap_app in Hnd'. apply NoDup_app in Hnd' as (_ & Hdisj & Hpair).
  simpl in Hpair. apply NoDup_cons in Hpair as [Hul _].
  rewrite list_elem_of_singleton in Hul.
  assert (Hfresh : w_lid w ∉ id <$> (past ≫= settled_messages)).
  { intros Hx. apply (Hdisj _ Hx). simpl. rewrite !elem_of_cons. auto. }
  unfold describes. split; [|split; [|split; [|split]]].
  + simpl. rewrite Hm, transcript_settle. unfold transcript. simpl.
    pose proof (handleSend_complete_fresh (w_uid w) (w_lid w) (w_question w)
                  (sendMessage f) (past ≫= settled_messages) [] Hfresh Hul
                  (not_elem_of_nil _)) as Hc.
    rewrite !app_nil_r in Hc. exact Hc.
  + simpl. rewrite Hf. simpl. rewrite filter_cons, decide_False by (by intros ?).
    done.
  + done.
  + by rewrite transcript_ids_settle.
  + simpl in *. rewrite app_nil_r, fmap_app. simpl.
    apply Forall_app in Hq as [Hq1 Hq2]. apply Forall_app. by split.
Qed.

Lemma step_preserves_inv (s s' : Session) :
  session_inv s → step s s' → session_inv s'.
Proof.
  intros (past & w & Hd) Hstep.
  destruct Hstep as [s e q uid lid Hask Hne Huid Hlid|s lid f Hin].
  - destruct (ask_describes s e q uid lid past w Hd Hask Hne Huid Hlid) as [_ Hd'].
    by exists past, (Some (mkWaiting uid lid q)).
  - destruct (settle_describes s lid f past w Hd Hin) as (w0 & _ & _ & Hd').
    by eexists _, None.
Qed.

Lemma initial_inv_describes : describes [] None initial.
Proof. repeat split; constructor. Qed.

Lemma initial_inv : session_inv initial.
Proof. exists [], None. apply initial_inv_describes. Qed.

Lemma reachable_inv (s : Session) : reachable s → session_inv s.
Proof.
  revert s. apply rtc_ind_r; [apply initial_inv|].
  intros y z _ Hstep Hy. by eapply step_preserves_inv.
Qed.

Lemma waiting_session_reachable : reachable waiting_session.
Proof.
  apply rtc_once.
  apply (step_ask initial (SubmitForm (utf16 " Halo ")) (utf16 "Halo")
           (utf16 "u1") (utf16 "l1")); simpl.
  - reflexivity.
  - discriminate.
  - apply not_elem_of_nil.
  - apply not_elem_of_nil.
Qed.

Lemma settled_session_reachable : reachable settled_session.
Proof.
  eapply rtc_r; [apply waiting_session_reachable|].
  apply (step_settle waiting_session (utf16 "l1") FetchRejected).
  simpl. apply list_elem_of_here.
Qed.

Lemma settled_messages_bubbles (past : list Settled) :
  MessageBubble <$> (past ≫= settled_messages) = past ≫= settled_bubbles.
Proof.
  induction past as [|x past IH]; [done|].
  change (MessageBubble <$> (settled_messages x ++ (past ≫= settled_messages))
          = settled_bubbles x ++ (past ≫= settled_bubbles)).
  rewrite fmap_app, IH. f_equal.
  unfold settled_messages, settled_bubbles. by destruct (s_outcome x).
Qed.

Lemma transcript_bubbles (past : list Settled) (w : option Waiting) :
  MessageBubble <$> transcript past w = (past ≫= settled_bubbles) ++ waiting_bubbles w.
Proof.
  unfold transcript. rewrite fmap_app, settled_messages_bubbles. f_equal.
  by destruct w.
Qed.

Lemma settled_bubbles_not_loading (past : list Settled) :
  LoadingBubble ∉ past ≫= settled_bubbles.
Proof.
  induction past as [|x past IH]; [apply not_elem_of_nil|].
  change (LoadingBubble ∉ settled_bubbles x ++ (past ≫= settled_bubbles)).
  rewrite not_elem_of_app. split; [|done].
  unfold settled_bubbles. rewrite !not_elem_of_cons.
  split; [done|]. split; [by destruct (s_outcome x)|apply not_elem_of_nil].
Qed.

Lemma settled_messages_not_loading (past : list Settled) (m : ChatMessage) :
  m ∈ past ≫= settled_messages → truthy (isLoading m) = false.
Proof.
  rewrite list_elem_of_bind. intros (x & Hm & _).
  unfold settled_messages in Hm. rewrite !elem_of_cons, elem_of_nil in Hm.
  destruct Hm as [->|[->|[]]]; [done|]. by destruct (s_outcome x).
Qed.

(** X9.  While a request is in flight the interface offers no way to ask: the
    form is disabled and the suggestion buttons are not on the screen. *)
Theorem ui_blocked_while_in_flight (s : Session) (e : UiEvent) :
  reachable s → in_flight s ≠ [] → ui_question (app s) e = None.
Proof.
  intros (past & w & Hm & Hf & Hl & _)%reachable_inv Hne.
  destruct w as [w|]; [|by rewrite Hf in Hne]. simpl in Hl.
  destruct e as [i|input]; simpl.
  - rewrite Hm. unfold ChatWindow, transcript. rewrite length_app. simpl.
    by rewrite Nat.add_comm.
  - rewrite Hl. unfold handleSubmit. by rewrite orb_true_r.
Qed.

Lemma ui_blocked_while_in_flight_witness :
  ui_question (app waiting_session) (SubmitForm (utf16 "Dan cuti?")) = None.
Proof.
  exact (ui_blocked_while_in_flight waiting_session (SubmitForm (utf16 "Dan cuti?"))
           waiting_session_reachable ltac:(discriminate)).
Defined.

(** X10.  At most one request is in flight at any time, and the loading flag is
    set exactly while one is. *)
Theorem single_flight (s : Session) :
  reachable s →
  (List.length (in_flight s) ≤ 1)%nat
  ∧ (appLoading (app s) = true ↔ in_flight s ≠ []).
Proof.
  intros (past & w & _ & Hf & Hl & _)%reachable_inv. rewrite Hf, Hl.
  destruct w; simpl; split; try lia; split; done.
Qed.

Lemma single_flight_witness :
  (List.length (in_flight waiting_session) ≤ 1)%nat
  ∧ (appLoading (app waiting_session) = true ↔ in_flight waiting_session ≠ []).
Proof. exact (single_flight waiting_session waiting_session_reachable). Defined.

(** Every state the loop can reach is the end of a run, and conversely. *)
Lemma reachable_run (s : Session) : reachable s ↔ ∃ ts, run ts s.
Proof.
  split.
  - revert s. apply rtc_ind_r; [exists []; constructor|].
    intros y z _ Hstep [ts Hts].
    destruct Hstep as [s e q uid lid Hask Hne Huid Hlid|s lid f Hin].
    + exists (ts ++ [Ask e q uid lid]). by constructor.
    + exists (ts ++ [Settle lid f]). by constructor.
  - intros [ts Hts]. induction Hts as [|ts s e q uid lid _ IH Hask Hne Huid Hlid
                                        |ts s lid f _ IH Hin].
    + apply rtc_refl.
    + eapply rtc_r; [exact IH|]. by econstructor.
    + eapply rtc_r; [exact IH|]. by constructor.
Qed.

(** What a run leads to is described by its own questions and outcomes:
    the settled exchanges are the questions asked paired, position by
    position, with the outcomes settled, and the question waiting is the one
    asked last. *)
Lemma run_describes (ts : list Turn) (s : Session) :
  run ts s →
  ∃ past w,
    describes past w s
    ∧ asked ts = ((λ x, (s_question x, s_lid x)) <$> past)
                 ++ ((λ x, (w_question x, w_lid x)) <$> option_list w)
    ∧ settled ts = (λ x, (s_lid x, s_outcome x)) <$> past.
Proof.
  induction 1 as [|ts s e q uid lid _ (past & w & Hd & Ha & Hs) Hask Hne Huid Hlid
                  |ts s lid f _ (past & w & Hd & Ha & Hs) Hin].
  - exists [], None. split; [|done]. apply initial_inv_describes.
  - destruct (ask_describes s e q uid lid past w Hd Hask Hne Huid Hlid) as [-> Hd'].
    exists past, (Some (mkWaiting uid lid q)). split; [done|].
    unfold asked, settled in *. rewrite !omap_app, Ha, Hs. simpl.
    by rewrite !app_nil_r.
  - destruct (settle_describes s lid f past w Hd Hin) as (w0 & -> & -> & Hd').
    eexists _, None. split; [exact Hd'|].
    unfold asked, settled in *. rewrite !omap_app, Ha, Hs. simpl.
    by rewrite !fmap_app, !app_nil_r.
Qed.

Lemma history_bubbles_transcript (past : list Settled) (w : option Waiting) :
  history_bubbles
    ((((λ x, (s_question x, s_lid x)) <$> past)
      ++ ((λ x, (w_question x, w_lid x)) <$> option_list w)).*1)
    (((λ x, (s_lid x, s_outcome x)) <$> past).*2)
  = (past ≫= settled_bubbles) ++ waiting_bubbles w.
Proof.
  induction past as [|x past IH].
  - by destruct w.
  - rewrite bind_cons, <- app_assoc, <- IH. reflexivity.
Qed.

(** X12.  What is on the screen is the history of the run.  Whatever turns
    the loop has taken, the bubbles are, for the questions in the order
    asked, each question followed by the bubble of the outcome settled at
    the same position -- the answer with its sources, or the error
    paragraph -- and by the typing indicator when no outcome has settled for
    it.  The requests settle in the order asked: the placeholders settled
    are the first placeholders asked for, and what is in flight are the
    remaining ones. *)
Theorem window_shows_history (ts : list Turn) (s : Session) :
  run ts s →
  MessageBubble <$> messages (app s)
  = history_bubbles ((asked ts).*1) ((settled ts).*2)
  ∧ (settled ts).*1 = take (List.length (settled ts)) ((asked ts).*2)
  ∧ in_flight s = drop (List.length (settled ts)) ((asked ts).*2)
  ∧ List.length (asked ts)
    = (List.length (settled ts) + List.length (in_flight s))%nat.
Proof.
  intros (past & w & (Hm & Hf & _) & Ha & Hs)%run_describes.
  split; [|split; [|split]].
  - by rewrite Hm, transcript_bubbles, Ha, Hs, history_bubbles_transcript.
  - rewrite Ha, Hs, !fmap_app, <- !list_fmap_compose, length_fmap.
    by rewrite take_app_length' by (by rewrite length_fmap).
  - rewrite Ha, Hs, Hf, !fmap_app, <- !list_fmap_compose, length_fmap.
    by rewrite drop_app_length' by (by rewrite length_fmap).
  - rewrite Ha, Hs, Hf, length_app, !length_fmap. done.
Qed.

(** The run of one question that fails. *)
Lemma window_shows_history_witness :
  MessageBubble <$> messages (app settled_session)
  = [UserBubble (utf16 "Halo"); ErrorBubble error_text].
Proof.
  refine (proj1 (window_shows_history
                   [Ask (SubmitForm (utf16 " Halo ")) (utf16 "Halo") (utf16 "u1") (utf16 "l1");
                    Settle (utf16 "l1") FetchRejected]
                   settled_session _)).
  apply (run_settle [Ask (SubmitForm (utf16 " Halo ")) (utf16 "Halo") (utf16 "u1") (utf16 "l1")]
           waiting_session (utf16 "l1") FetchRejected).
  - apply (run_ask [] initial (SubmitForm (utf16 " Halo ")) (utf16 "Halo")
             (utf16 "u1") (utf16 "l1")); simpl.
    + constructor.
    + reflexivity.
    + discriminate.
    + apply not_elem_of_nil.
    + apply not_elem_of_nil.
  - simpl. apply list_elem_of_here.
Defined.

(** X13.  The typing indicator is on the screen exactly while the loading flag is
    set, and it is then the last bubble: once a request has settled, by
    success or by failure, no indicator stays behind. *)
Theorem typing_indicator_iff_loading (s : Session) :
  reachable s →
  (LoadingBubble ∈ MessageBubble <$> messages (app s) ↔ appLoading (app s) = true)
  ∧ (appLoading (app s) = true →
     last (MessageBubble <$> messages (app s)) = Some LoadingBubble).
Proof.
  intros (past & w & Hm & _ & Hl & _)%reachable_inv.
  rewrite Hm, Hl, transcript_bubbles.
  pose proof (settled_bubbles_not_loading past) as Hpast.
  destruct w as [w|]; simpl.
  - split; [|intros _; by rewrite last_app].
    split; [done|]. intros _. rewrite elem_of_app. right.
    apply list_elem_of_further, list_elem_of_here.
  - rewrite app_nil_r. split; [|done]. split; [done|done].
Qed.

Lemma typing_indicator_iff_loading_witness :
  (LoadingBubble ∈ MessageBubble <$> messages (app settled_session)
   ↔ appLoading (app settled_session) = true)
  ∧ (appLoading (app settled_session) = true →
     last (MessageBubble <$> messages (app settled_session)) = Some LoadingBubble).
Proof.
  exact (typing_indicator_iff_loading settled_session settled_session_reachable).
Defined.

(** X14.  Every question on the screen is well formed: the content of a user
    message is never empty and has no white space around it. *)
Theorem shown_questions_are_well_formed (s : Session) (m : ChatMessage) :
  reachable s → m ∈ messages (app s) → role m = user →
  content m ≠ [] ∧ js_trim (content m) = content m.
Proof.
  intros (past & w & Hm & _ & _ & _ & Hq)%reachable_inv Hin Hrole.
  rewrite Forall_app, !Forall_fmap, !Forall_forall in Hq. destruct Hq as [Hq1 Hq2].
  rewrite Hm in Hin. unfold transcript in Hin.
  apply elem_of_app in Hin as [Hin|Hin].
  - apply list_elem_of_bind in Hin as (x & Hin & Hx).
    unfold settled_messages in Hin. rewrite !elem_of_cons, elem_of_nil in Hin.
    destruct Hin as [->|[->|[]]]; [by apply (Hq1 x)|].
    by destruct (s_outcome x).
  - destruct w as [w|]; simpl in Hin; [|by apply elem_of_nil in Hin].
    rewrite !elem_of_cons, elem_of_nil in Hin.
    destruct Hin as [->|[->|[]]]; [|done].
    apply (Hq2 w). simpl. apply list_elem_of_here.
Qed.

Lemma shown_questions_are_well_formed_witness :
  content (userMessage (utf16 "u1") (utf16 "Halo")) ≠ []
  ∧ js_trim (content (userMessage (utf16 "u1") (utf16 "Halo")))
    = content (userMessage (utf16 "u1") (utf16 "Halo")).
Proof.
  refine (shown_questions_are_well_formed settled_session
            (userMessage (utf16 "u1") (utf16 "Halo"))
            settled_session_reachable _ eq_refl).
  simpl. apply list_elem_of_here.
Defined.

(** X15.  A turn of the loop never shortens the list and never touches a message
    that is not a placeholder: questions, answers and errors stay where they
    are, as they are. *)
Theorem settled_messages_never_change (s s' : Session) :
  reachable s → step s s' →
  (List.length (messages (app s)) ≤ List.length (messages (app s')))%nat
  ∧ ∀ (i : nat) m, messages (app s) !! i = Some m →
      truthy (isLoading m) = false → messages (app s') !! i = Some m.
Proof.
  intros (past & w & Hm & Hf & _ & Hnd & _)%reachable_inv Hstep.
  destruct Hstep as [s e q uid lid _ _ _ _|s lid f Hin]; simpl.
  - rewrite length_app. split; [lia|].
    intros i m Hi _. by apply lookup_app_l_Some.
  - rewrite replace_by_id_length. split; [done|].
    intros i m Hi Hload. rewrite replace_by_id_lookup, Hi. simpl.
    rewrite decide_False; [done|]. intros Hid.
    rewrite Hf in Hin. destruct w as [w|]; simpl in Hin; [|by apply elem_of_nil in Hin].
    apply list_elem_of_singleton in Hin as ->.
    assert (Heq : m = loadingMessage (w_lid w)); [|by rewrite Heq in Hload].
    apply (same_id_same_message (transcript past (Some w))); [done| | |done].
    + rewrite <- Hm. by eapply list_elem_of_lookup_2.
    + unfold transcript. rewrite elem_of_app. right. simpl.
      apply list_elem_of_further, list_elem_of_here.
Qed.

Lemma settled_messages_never_change_witness :
  (List.length (messages (app waiting_session))
   ≤ List.length (messages (app settled_session)))%nat
  ∧ ∀ (i : nat) m, messages (app waiting_session) !! i = Some m →
      truthy (isLoading m) = false → messages (app settled_session) !! i = Some m.
Proof.
  refine (settled_messages_never_change waiting_session settled_session
            waiting_session_reachable _).
  apply (step_settle waiting_session (utf16 "l1") FetchRejected).
  simpl. apply list_elem_of_here.
Defined.

(** X16.  The welcome screen with the suggested questions is what the window
    shows in the initial state and in no other state. *)
Theorem welcome_only_initially (s : Session) :
  reachable s →
  (ChatWindow (messages (app s)) = WelcomeView SUGGESTED_QUESTIONS ↔ s = initial).
Proof.
  intros (past & w & Hm & Hf & Hl & _)%reachable_inv. split; [|by intros ->].
  unfold ChatWindow. destruct (messages (app s)) as [|m l] eqn:Hmsgs; [|done].
  intros _. symmetry in Hm. apply transcript_nil_inv in Hm as [-> ->].
  simpl in *. destruct s as [[msgs loading] flying]. simpl in *. by subst.
Qed.

Lemma welcome_only_initially_witness :
  ChatWindow (messages (app initial)) = WelcomeView SUGGESTED_QUESTIONS.
Proof.
  exact (proj2 (welcome_only_initially initial (rtc_refl step initial)) eq_refl).
Defined.

(** X17.  When the request in flight settles, by success or by failure, nothing
    is in flight any more, the loading flag is down and the form accepts
    the next question: a failed request never leaves the form disabled. *)
Theorem settling_reenables_form (s : Session) (lid : jsstring) (f : FetchOutcome)
    (input : jsstring) :
  reachable s → lid ∈ in_flight s →
  filter (λ l, l ≠ lid) (in_flight s) = []
  ∧ appLoading (handleSend_complete lid (sendMessage f) (app s)) = false
  ∧ (js_trim input ≠ [] →
     ui_question (handleSend_complete lid (sendMessage f) (app s)) (SubmitForm input)
     = Some (js_trim input)).
Proof.
  intros (past & w & _ & Hf & _)%reachable_inv Hin. rewrite Hf in *.
  destruct w as [w|]; simpl in *; [|by apply elem_of_nil in Hin].
  apply list_elem_of_singleton in Hin as ->.
  split; [by rewrite filter_cons, decide_False by (by intros ?)|].
  split; [done|]. intros Hne. unfold handleSubmit.
  by destruct (js_trim input).
Qed.

Lemma settling_reenables_form_witness :
  ui_question (handleSend_complete (utf16 "l1") (sendMessage FetchRejected)
                 (app waiting_session))
    (SubmitForm (utf16 " Dan cuti? "))
  = Some (js_trim (utf16 " Dan cuti? ")).
Proof.
  refine (proj2 (proj2 (settling_reenables_form waiting_session (utf16 "l1")
            FetchRejected (utf16 " Dan cuti? ") waiting_session_reachable _)) _).
  - simpl. apply list_elem_of_here.
  - discriminate.
Defined.

Lemma answer_card_iff_sources_witness :
  is_Some (bubble_card
             (MessageBubble
                (completion_message (utf16 "l1")
                   (sendMessage (FetchResolved
                      (mkHttpResponse true None
                         (Some (mkChatResponse (utf16 "Minimal 144 SKS.")
                                  [null_page_source] (utf16 "gpt-4o-mini"))))))))
             false).
Proof.
  apply (proj1 (proj2 (answer_card_iff_sources (utf16 "l1")
           (FetchResolved
              (mkHttpResponse true None
                 (Some (mkChatResponse (utf16 "Minimal 144 SKS.")
                          [null_page_source] (utf16 "gpt-4o-mini")))))
           false))
         (mkChatResponse (utf16 "Minimal 144 SKS.") [null_page_source]
            (utf16 "gpt-4o-mini"))).
  - reflexivity.
  - discriminate.
Defined.

End SessionFacts.
